(** * opentp-sdk: the event dispatch pipeline

    A shallow embedding of the tracker's core (consent.ts, dispatcher.ts,
    queue.ts, tracker.ts, types.ts) and the properties of the dispatch
    pipeline: consent gate, middleware chain, batching queue and the
    fan-out to adapters.

    Conventions of the embedding.
    - JavaScript objects used as dictionaries are finite maps of their
      own properties ([gmap string _]).  Where the code reads such an
      object with a name given by the caller, the event or the
      configuration ([mapping[event.key]], [payload[field]],
      [areaEvents[eventProp]], ...), the read goes through
      [Js.property], which also answers for the members inherited from
      [Object.prototype]; where it writes with such a name
      ([data[field] = value], [Object.assign]), the write goes through
      [Js.put].
    - A promise is represented by its eventual settlement ([Settle]):
      the logical time at which it settles together with its outcome, or
      [Never].  Logical time counts turns of the job queue; [await] and
      promise reactions resume one turn after the promise they wait for.
    - Calls into user code (adapters, middleware, payload builders) are
      described by the behaviour they show at the call. *)

From Stdlib Require Import String Ascii ZArith List Lia Bool.
From stdpp Require Import base option list gmap strings.

Local Open Scope Z_scope.
Local Open Scope nat_scope.

(* ================================================================= *)
(** ** JavaScript primitives used by the sources *)

Module Js.

(** Logical time: the number of the job-queue turn. *)
Abbreviation Time := nat (only parsing).

(** How a synchronous call completes: it returns or it throws. *)
Inductive Completion (A : Type) : Type :=
| Normal (a : A)
| Thrown (msg : string).
Arguments Normal {A} a.
Arguments Thrown {A} msg.

(** Outcome of a settled promise. *)
Inductive Outcome (A : Type) : Type :=
| Fulfilled (a : A)
| Rejected (msg : string).
Arguments Fulfilled {A} a.
Arguments Rejected {A} msg.

(** A promise, seen through its settlement. *)
Inductive Settle (A : Type) : Type :=
| Never
| At (t : Time) (o : Outcome A).
Arguments Never {A}.
Arguments At {A} t o.

(** [await p] evaluated at time [now]: the continuation runs in a later
    turn, once [p] has settled. *)
Definition await {A} (now : Time) (p : Settle A) : Settle A :=
  match p with
  | Never => Never
  | At t o => At (S (Nat.max t now)) o
  end.

(** The earliest rejection among promises; of two rejections in the
    same turn the one listed first wins (its reaction was queued first). *)
Fixpoint first_rejection {A} (ps : list (Settle A)) : option (Time * string) :=
  match ps with
  | [] => None
  | p :: rest =>
      match p, first_rejection rest with
      | At t (Rejected m), Some (t', m') =>
          if t' <? t then Some (t', m') else Some (t, m)
      | At t (Rejected m), None => Some (t, m)
      | _, r => r
      end
  end.

Definition is_never {A} (p : Settle A) : bool :=
  match p with Never => true | At _ _ => false end.

Definition settle_time {A} (p : Settle A) : Time :=
  match p with Never => 0 | At t _ => t end.

(** [Promise.all(ps)] called at time [now].  It rejects as soon as the
    reaction to the first rejected element runs; it fulfils after the
    reaction to the last element when all fulfil; the empty array
    fulfils at once. *)
Definition promise_all {A} (now : Time) (ps : list (Settle A)) : Settle unit :=
  match first_rejection ps with
  | Some (t, m) => At (S (Nat.max t now)) (Rejected m)
  | None =>
      if existsb is_never ps then Never
      else match ps with
           | [] => At now (Fulfilled tt)
           | _ => At (S (Nat.max (list_max (map settle_time ps)) now)) (Fulfilled tt)
           end
  end.

(** The names under which a plain object answers through
    [Object.prototype], in the order of [Object.getOwnPropertyNames]. *)
Definition prototype_names : list string :=
  ["constructor"; "__defineGetter__"; "__defineSetter__"; "hasOwnProperty";
   "__lookupGetter__"; "__lookupSetter__"; "isPrototypeOf";
   "propertyIsEnumerable"; "toString"; "valueOf"; "__proto__";
   "toLocaleString"]%string.

Definition inherited (k : string) : bool :=
  existsb (String.eqb k) prototype_names.

(** What reading a property of a plain object used as a dictionary
    yields: a value of the dictionary, or the member of
    [Object.prototype] of that name, which is a function and, for
    [__proto__], the prototype itself. *)
Inductive Got (V : Type) : Type :=
| Val (v : V)
| Member (name : string).
Arguments Val {V} v.
Arguments Member {V} name.

(** [obj[k]]: the own property, else the inherited member, else
    [undefined]. *)
Definition property {V} (obj : gmap string V) (k : string) : option (Got V) :=
  match obj !! k with
  | Some v => Some (Val v)
  | None => if inherited k then Some (Member k) else None
  end.

(** [String(member)], where a template literal or a property key makes
    a string of an inherited member: the text of a built-in function as
    V8 prints it (the standard fixes its form up to white space), and
    [[object Object]] for the prototype. *)
Definition member_text (name : string) : string :=
  if String.eqb name "__proto__" then "[object Object]"
  else if String.eqb name "constructor" then "function Object() { [native code] }"
  else ("function " +:+ name +:+ "() { [native code] }")%string.

(** [obj[k] = v] on a plain object: the own property [k] is made or
    updated; on an object without an own property [__proto__] the
    assignment to [__proto__] goes to the setter of [Object.prototype]
    and makes no property (the values written are primitives or the
    prototype itself, which leave the prototype as it is). *)
Definition put {V} (obj : gmap string V) (k : string) (v : V) : gmap string V :=
  if String.eqb k "__proto__" && negb (bool_decide (is_Some (obj !! k)))
  then obj
  else <[k := v]> obj.

End Js.
Import Js.

(* ================================================================= *)
(** ** types.ts *)

(** A value stored in a payload or in metadata; [JNull] is [null] or
    [undefined], which the code treats alike. *)
Inductive JsValue : Type :=
| JStr (s : string)
| JNum (z : Z)
| JBool (b : bool)
| JNull.

Record DispatchedEvent : Type := mkEvent {
  key : string;
  area : string;
  eventName : string;
  payload : gmap string JsValue;
  timestamp : Z;
  metadata : gmap string JsValue;
}.

(** [type ConsentCategory = 'analytics' | 'marketing' | 'functional' | 'necessary'] *)
Inductive ConsentCategory : Type :=
| analytics
| marketing
| functional
| necessary.

(** The string a category is as a property name of the consent state. *)
Definition category_name (c : ConsentCategory) : string :=
  match c with
  | analytics => "analytics"
  | marketing => "marketing"
  | functional => "functional"
  | necessary => "necessary"
  end.

Module ConsentConfig.
Record t : Type := mk {
  defaultState : option (gmap string bool);
  mapping : option (gmap string ConsentCategory);
  defaultCategory : option ConsentCategory;
}.
End ConsentConfig.

Module QueueConfig.
Record t : Type := mk {
  enabled : option bool;
  maxSize : option Z;
  flushInterval : option Z;
}.
End QueueConfig.

(** What a call to an adapter method ([void | Promise<void>]) does. *)
Inductive CallBehaviour : Type :=
| Throws (msg : string)            (* throws synchronously *)
| Returns                          (* returns undefined *)
| Fulfils (delay : nat)            (* returns a promise fulfilled [delay] turns later *)
| Rejects (delay : nat) (msg : string)  (* returns a promise rejected [delay] turns later *)
| Pends.                           (* returns a promise that never settles *)

(** The value the call expression yields at time [now]; [await] treats
    [undefined] as an already fulfilled promise. *)
Definition call_result (now : Time) (b : CallBehaviour) : Completion (Settle unit) :=
  match b with
  | Throws m => Thrown m
  | Returns => Normal (At now (Fulfilled tt))
  | Fulfils d => Normal (At (now + d) (Fulfilled tt))
  | Rejects d m => Normal (At (now + d) (Rejected m))
  | Pends => Normal Never
  end.

Module Adapter.
Record t : Type := mk {
  name : string;
  init : option CallBehaviour;
  send : DispatchedEvent -> CallBehaviour;
  sendBatch : option (list DispatchedEvent -> CallBehaviour);
  destroy : option CallBehaviour;
}.
End Adapter.

(** [type Middleware = (event, next) => void].  A middleware is described
    by the calls to [next] it makes, in order and within its own
    invocation, when it is invoked on an event; the empty list is a
    middleware that declines.  The model covers middlewares that return
    normally and make their calls within their own invocation; calls
    made later, from a timer or a promise reaction, are not part of it. *)
Abbreviation Middleware := (DispatchedEvent -> list DispatchedEvent) (only parsing).

(** What the pipeline does to the outside world. *)
Inductive Effect : Type :=
| Init (adapter : string)
| Send (adapter : string) (event : DispatchedEvent)
| SendBatch (adapter : string) (events : list DispatchedEvent)
| Destroy (adapter : string)
| OnFlush (batch : list DispatchedEvent)
| OnError (msg : string) (event : option DispatchedEvent)
| UnhandledRejection (msg : string).

(** Effects with the time at which they happen. *)
Abbreviation Log := (list (nat * Effect)) (only parsing).

(** The result of calling an async function: the effects it has and the
    settlement of the promise it returns. *)
Record Run : Type := mkRun {
  settled : Settle unit;
  log : Log;
}.

(** A promise nobody handles: its rejection is an unhandled rejection. *)
Definition unhandled (p : Settle unit) : Log :=
  match p with
  | At t (Rejected m) => [(t, UnhandledRejection m)]
  | _ => []
  end.

(** Calling an async function and dropping the promise. *)
Definition detach (r : Run) : Log := log r ++ unhandled (settled r).

(** [array.map(f)] where [f] may throw: the first throw aborts the map. *)
Fixpoint js_map {A B} (f : A -> Log * Completion B) (l : list A)
  : Log * Completion (list B) :=
  match l with
  | [] => ([], Normal [])
  | x :: rest =>
      match f x with
      | (lg, Thrown m) => (lg, Thrown m)
      | (lg, Normal b) =>
          match js_map f rest with
          | (lg', Thrown m) => (lg ++ lg', Thrown m)
          | (lg', Normal bs) => (lg ++ lg', Normal (b :: bs))
          end
      end
  end.

Definition dquote : string := String (ascii_of_nat 34) EmptyString.

(* ================================================================= *)
(** ** consent.ts *)

Module ConsentManager.

Record t : Type := mk {
  state : gmap string bool;
  mapping : gmap string ConsentCategory;
  defaultCategory : ConsentCategory;
}.

(** [{ necessary: true, analytics: false, marketing: false, functional: false }] *)
Definition builtin_state : gmap string bool :=
  <["necessary" := true]> (<["analytics" := false]>
    (<["marketing" := false]> (<["functional" := false]> ∅))).

(** Object spread, [{ ...target, ...source }]: the own properties of
    [source] override those of [target]. *)
Definition assign {V} (target source : gmap string V) : gmap string V :=
  source ∪ target.

(** [Object.assign(target, source)]: every own property of [source] is
    written to [target] with [target[key] = value]. *)
Definition object_assign {V} (target source : gmap string V) : gmap string V :=
  map_fold (λ k v acc, put acc k v) target source.

(** [new ConsentManager(config?)] *)
Definition new (config : option ConsentConfig.t) : t :=
  {| state := assign builtin_state (default ∅ (config ≫= ConsentConfig.defaultState));
     mapping := default ∅ (config ≫= ConsentConfig.mapping);
     defaultCategory := default analytics (config ≫= ConsentConfig.defaultCategory) |}.

(** [getCategory(event)].  A category is a non-empty string and an
    inherited member is a function or an object, so
    [if (this.mapping[k])] holds exactly when [this.mapping[k]] is not
    [undefined]; what is returned is then a category of the mapping or
    an inherited member. *)
Definition getCategory (cm : t) (event : DispatchedEvent) : Got ConsentCategory :=
  match property (mapping cm) (key event) with
  | Some c => c
  | None =>
      match property (mapping cm) (area event) with
      | Some c => c
      | None =>
          let wildcardKey := (area event +:+ "::*")%string in
          match property (mapping cm) wildcardKey with
          | Some c => c
          | None => Val (defaultCategory cm)
          end
      end
  end.

(** The property key that [this.state[category]] reads. *)
Definition state_key (category : Got ConsentCategory) : string :=
  match category with
  | Val c => category_name c
  | Member name => member_text name
  end.

(** [isAllowed(event)]: [this.state[category] === true].  No inherited
    member is [true], so only an own property of the state can allow. *)
Definition isAllowed (cm : t) (event : DispatchedEvent) : bool :=
  let category := getCategory cm event in
  match state cm !! state_key category with
  | Some true => true
  | _ => false
  end.

(** [update(partial)]: [Object.assign(this.state, partial)] *)
Definition update (cm : t) (partial : gmap string bool) : t :=
  {| state := object_assign (state cm) partial;
     mapping := mapping cm;
     defaultCategory := defaultCategory cm |}.

(** [getState()]: a copy of the state. *)
Definition getState (cm : t) : gmap string bool := state cm.

End ConsentManager.

(* ================================================================= *)
(** ** dispatcher.ts *)

Module Dispatcher.

Record t : Type := mk {
  adapters : list Adapter.t;
  middlewareChain : list Middleware;
}.

(** The variables [resolved] and [index] captured by [next], and the
    event handed to [resolve] by [next]. *)
Record Chain : Type := mkChain {
  resolved : bool;
  index : nat;
  value : option DispatchedEvent;
}.

(** The closure [next].  [fuel] bounds the depth of nested middleware
    invocations; the length of the chain is always enough
    (see [next_fuel]). *)
Fixpoint next (fuel : nat) (chain : list Middleware) (st : Chain)
    (e : DispatchedEvent) : Chain :=
  if resolved st then st
  else
    let index' := S (index st) in
    if length chain <=? index' then
      {| resolved := true; index := index'; value := Some e |}
    else
      let st' := {| resolved := false; index := index'; value := value st |} in
      match fuel, chain !! index' with
      | S fuel', Some mw => foldl (next fuel' chain) st' (mw e)
      | _, _ => st'
      end.

(** [runMiddleware(event)]: the executor runs the first middleware; the
    [setTimeout(..., 0)] callback then resolves with [null] when
    [!resolved && index === 0].  The callback runs in a later task, once
    the jobs that are pending have run; the model places it at the next
    turn, the earliest at which it can run, so the time it gives to a
    drop is a lower bound. *)
Definition runMiddleware (chain : list Middleware) (event : DispatchedEvent)
    (now : Time) : Settle (option DispatchedEvent) :=
  match chain with
  | [] => At now (Fulfilled (Some event))
  | first :: _ =>
      let st := foldl (next (length chain) chain)
                  {| resolved := false; index := 0; value := None |}
                  (first event) in
      if resolved st then At now (Fulfilled (value st))
      else if index st =? 0 then At (S now) (Fulfilled None)
      else Never
  end.

(** [`Adapter "${adapter.name}" error: ${err.message}`] *)
Definition adapter_error (a : Adapter.t) (msg : string) : string :=
  ("Adapter " +:+ dquote +:+ Adapter.name a +:+ dquote +:+ " error: " +:+ msg)%string.

(** [`Adapter "${adapter.name}" batch error: ${err.message}`] *)
Definition adapter_batch_error (a : Adapter.t) (msg : string) : string :=
  ("Adapter " +:+ dquote +:+ Adapter.name a +:+ dquote +:+ " batch error: " +:+ msg)%string.

(** [try { body } catch (err) { throw new Error(wrap(err.message)) }] *)
Definition rethrow {A} (wrap : string -> string) (p : Settle A) : Settle A :=
  match p with
  | At t (Rejected m) => At t (Rejected (wrap m))
  | _ => p
  end.

(** [await f(...)] at time [now], where the call may throw. *)
Definition await_call (now : Time) (b : CallBehaviour) : Settle unit :=
  match call_result now b with
  | Thrown m => At now (Rejected m)
  | Normal p => await now p
  end.

(** The arrow function mapped over the adapters by [dispatch]: it is
    async, so its call returns a promise and never throws. *)
Definition send_task (finalEvent : DispatchedEvent) (now : Time) (a : Adapter.t)
  : Log * Completion (Settle unit) :=
  ([(now, Send (Adapter.name a) finalEvent)],
   Normal (rethrow (adapter_error a) (await_call now (Adapter.send a finalEvent)))).

(** [dispatch(event)] called at time [now]. *)
Definition dispatch (d : t) (event : DispatchedEvent) (now : Time) : Run :=
  match await now (runMiddleware (middlewareChain d) event now) with
  | Never => {| settled := Never; log := [] |}
  | At t (Rejected m) => {| settled := At t (Rejected m); log := [] |}
  | At t (Fulfilled None) => {| settled := At t (Fulfilled tt); log := [] |}
  | At t (Fulfilled (Some finalEvent)) =>
      match js_map (send_task finalEvent t) (adapters d) with
      | (lg, Thrown m) => {| settled := At t (Rejected m); log := lg |}
      | (lg, Normal ps) => {| settled := await t (promise_all t ps); log := lg |}
      end
  end.

(** The loop [for (const event of events)] of [dispatchBatch]: the
    time at which it ends and the events that survive, or [Never] when
    one of the awaited chains does not settle. *)
Fixpoint process (chain : list Middleware) (events processed : list DispatchedEvent)
    (now : Time) : Settle (list DispatchedEvent) :=
  match events with
  | [] => At now (Fulfilled processed)
  | event :: rest =>
      match await now (runMiddleware chain event now) with
      | Never => Never
      | At t (Rejected m) => At t (Rejected m)
      | At t (Fulfilled result) =>
          process chain rest (processed ++ option_list result) t
      end
  end.

(** [for (const event of processed) await adapter.send(event)] *)
Fixpoint send_each (a : Adapter.t) (processed : list DispatchedEvent) (now : Time)
  : Log * Settle unit :=
  match processed with
  | [] => ([], At now (Fulfilled tt))
  | event :: rest =>
      match await_call now (Adapter.send a event) with
      | At t (Fulfilled _) =>
          let '(lg, p) := send_each a rest t in
          ((now, Send (Adapter.name a) event) :: lg, p)
      | p => ([(now, Send (Adapter.name a) event)], p)
      end
  end.

(** The arrow function mapped over the adapters by [dispatchBatch]. *)
Definition batch_task (processed : list DispatchedEvent) (now : Time) (a : Adapter.t)
  : Log * Completion (Settle unit) :=
  match Adapter.sendBatch a with
  | Some sendBatch =>
      ([(now, SendBatch (Adapter.name a) processed)],
       Normal (rethrow (adapter_batch_error a) (await_call now (sendBatch processed))))
  | None =>
      let '(lg, p) := send_each a processed now in
      (lg, Normal (rethrow (adapter_batch_error a) p))
  end.

(** [dispatchBatch(events)] called at time [now]. *)
Definition dispatchBatch (d : t) (events : list DispatchedEvent) (now : Time) : Run :=
  match process (middlewareChain d) events [] now with
  | Never => {| settled := Never; log := [] |}
  | At t (Rejected m) => {| settled := At t (Rejected m); log := [] |}
  | At t (Fulfilled processed) =>
      if length processed =? 0 then {| settled := At t (Fulfilled tt); log := [] |}
      else
        match js_map (batch_task processed t) (adapters d) with
        | (lg, Thrown m) => {| settled := At t (Rejected m); log := lg |}
        | (lg, Normal ps) => {| settled := await t (promise_all t ps); log := lg |}
        end
  end.

End Dispatcher.

(* ================================================================= *)
(** ** queue.ts *)

Module EventQueue.

Record t : Type := mk {
  queue : list DispatchedEvent;
  timer : option Z;          (* the running interval timer, with its period *)
  maxSize : Z;
  flushInterval : Z;
  onFlush : list DispatchedEvent -> Time -> Log * Completion (Settle unit);
}.

Definition set_queue (q : t) (buffer : list DispatchedEvent) : t :=
  {| queue := buffer; timer := timer q; maxSize := maxSize q;
     flushInterval := flushInterval q; onFlush := onFlush q |}.

Definition set_timer (q : t) (handle : option Z) : t :=
  {| queue := queue q; timer := handle; maxSize := maxSize q;
     flushInterval := flushInterval q; onFlush := onFlush q |}.

(** [new EventQueue(config, onFlush)] *)
Definition new (config : QueueConfig.t)
    (onFlush : list DispatchedEvent -> Time -> Log * Completion (Settle unit)) : t :=
  let maxSize := default 10%Z (QueueConfig.maxSize config) in
  let flushInterval := default 5000%Z (QueueConfig.flushInterval config) in
  {| queue := [];
     timer := if (0 <? flushInterval)%Z then Some flushInterval else None;
     maxSize := maxSize;
     flushInterval := flushInterval;
     onFlush := onFlush |}.

(** [flush()] called at time [now]: the code up to the [await] runs
    within the call, so the callback is invoked before [flush] returns
    its promise. *)
Definition flush (q : t) (now : Time) : t * Run :=
  if length (queue q) =? 0 then (q, {| settled := At now (Fulfilled tt); log := [] |})
  else
    let batch := queue q in             (* this.queue.splice(0) *)
    let q' := set_queue q [] in
    match onFlush q batch now with
    | (lg, Thrown m) =>
        (q', {| settled := At now (Rejected m); log := (now, OnFlush batch) :: lg |})
    | (lg, Normal p) =>
        (q', {| settled := await now p; log := (now, OnFlush batch) :: lg |})
    end.

(** [push(event)] called at time [now]; the promise of [flush] is dropped. *)
Definition push (event : DispatchedEvent) (q : t) (now : Time) : t * Log :=
  let q1 := set_queue q (queue q ++ [event]) in
  if (maxSize q1 <=? Z.of_nat (length (queue q1)))%Z then
    let '(q2, r) := flush q1 now in (q2, detach r)
  else (q1, []).

(** The callback of [setInterval(() => this.flush(), flushInterval)]
    firing at time [now]. *)
Definition tick (q : t) (now : Time) : t * Log :=
  match timer q with
  | Some _ => let '(q', r) := flush q now in (q', detach r)
  | None => (q, [])
  end.

(** [destroy()] called at time [now]. *)
Definition destroy (q : t) (now : Time) : t * Run :=
  let q1 := match timer q with
            | Some _ => set_timer q None     (* clearInterval; this.timer = null *)
            | None => q
            end in
  let '(q2, r) := flush q1 now in
  (q2, {| settled := await now (settled r); log := log r |}).

(** A sequence of [push] calls, each at its own time. *)
Fixpoint push_all (calls : list (Time * DispatchedEvent)) (q : t) : t * Log :=
  match calls with
  | [] => (q, [])
  | (now, event) :: rest =>
      let '(q1, lg1) := push event q now in
      let '(q2, lg2) := push_all rest q1 in
      (q2, lg1 ++ lg2)
  end.

End EventQueue.

(* ================================================================= *)
(** ** tracker.ts *)

Module TrackingEvent.
Record t : Type := mk {
  key : string;
  constants : gmap string JsValue;
  (** [buildPayload(params?)]: the payload, or the error it throws. *)
  buildPayload : option (gmap string JsValue) -> Completion (gmap string JsValue);
}.
End TrackingEvent.

Module TrackerConfig.
Record t : Type := mk {
  events : gmap string (gmap string TrackingEvent.t);
  adapters : list Adapter.t;
  middleware : option (list Middleware);
  consent : option ConsentConfig.t;
  queue : option QueueConfig.t;
  globalMetadata : option (gmap string JsValue);
}.
End TrackerConfig.

Module Tracker.

(** The variables captured by the closures of [createTracker].  Calls
    of the [onError] callback (the configured one or the default
    [console.error]) are recorded as [OnError] effects. *)
Record t : Type := mk {
  events : gmap string (gmap string TrackingEvent.t);
  adapters : list Adapter.t;
  consentManager : ConsentManager.t;
  dispatcher : Dispatcher.t;
  queue : option EventQueue.t;
  globalMetadata : gmap string JsValue;
}.

Definition set_queue (tr : t) (q : option EventQueue.t) : t :=
  {| events := events tr; adapters := adapters tr;
     consentManager := consentManager tr; dispatcher := dispatcher tr;
     queue := q; globalMetadata := globalMetadata tr |}.

Definition set_consentManager (tr : t) (cm : ConsentManager.t) : t :=
  {| events := events tr; adapters := adapters tr;
     consentManager := cm; dispatcher := dispatcher tr;
     queue := queue tr; globalMetadata := globalMetadata tr |}.

Definition set_globalMetadata (tr : t) (md : gmap string JsValue) : t :=
  {| events := events tr; adapters := adapters tr;
     consentManager := consentManager tr; dispatcher := dispatcher tr;
     queue := queue tr; globalMetadata := md |}.

(** [`Failed to init adapter "${adapter.name}": ${err.message}`] *)
Definition init_error (a : Adapter.t) (msg : string) : string :=
  ("Failed to init adapter " +:+ dquote +:+ Adapter.name a +:+ dquote +:+ ": " +:+ msg)%string.

(** [`Failed to destroy adapter "${adapter.name}": ${err.message}`] *)
Definition destroy_error (a : Adapter.t) (msg : string) : string :=
  ("Failed to destroy adapter " +:+ dquote +:+ Adapter.name a +:+ dquote +:+ ": " +:+ msg)%string.

(** [try { adapter.init?.() } catch (err) { onError(...) }]: the result
    of [init] is not awaited. *)
Definition init_adapter (now : Time) (a : Adapter.t) : Log :=
  match Adapter.init a with
  | None => []
  | Some b =>
      (now, Init (Adapter.name a)) ::
      match call_result now b with
      | Thrown m => [(now, OnError (init_error a m) None)]
      | Normal p => unhandled p
      end
  end.

(** [(batch) => dispatcher.dispatchBatch(batch)] *)
Definition release (d : Dispatcher.t) (batch : list DispatchedEvent) (now : Time)
  : Log * Completion (Settle unit) :=
  let r := Dispatcher.dispatchBatch d batch now in (log r, Normal (settled r)).

(** [createTracker(config)] called at time [now]. *)
Definition createTracker (config : TrackerConfig.t) (now : Time) : t * Log :=
  let adapters := TrackerConfig.adapters config in
  let middleware := default [] (TrackerConfig.middleware config) in
  let consentManager := ConsentManager.new (TrackerConfig.consent config) in
  let dispatcher := Dispatcher.mk adapters middleware in
  let queue :=
    match TrackerConfig.queue config with
    | Some queueConfig =>
        match QueueConfig.enabled queueConfig with
        | Some true => Some (EventQueue.new queueConfig (release dispatcher))
        | _ => None
        end
    | None => None
    end in
  ({| events := TrackerConfig.events config; adapters := adapters;
      consentManager := consentManager; dispatcher := dispatcher;
      queue := queue;
      globalMetadata := default ∅ (TrackerConfig.globalMetadata config) |},
   concat (map (init_adapter now) adapters)).

(** The event built by [dispatchEvent]; [clock] is [Date.now()]. *)
Definition build_event (tr : t) (clock : Z) (key area eventName : string)
    (payload : gmap string JsValue) : DispatchedEvent :=
  {| key := key; area := area; eventName := eventName; payload := payload;
     timestamp := clock; metadata := globalMetadata tr |}.

(** [dispatcher.dispatch(event).catch((err) => onError(err, event))] *)
Definition catch_onError (event : DispatchedEvent) (r : Run) : Log :=
  log r ++
  match settled r with
  | At t (Rejected m) => [(S t, OnError m (Some event))]
  | _ => []
  end.

(** [dispatchEvent(key, area, eventName, payload)] called at time [now]. *)
Definition dispatchEvent (tr : t) (clock : Z) (now : Time)
    (key area eventName : string) (payload : gmap string JsValue) : t * Log :=
  let event := build_event tr clock key area eventName payload in
  if negb (ConsentManager.isAllowed (consentManager tr) event) then (tr, [])
  else
    match queue tr with
    | Some q =>
        let '(q', lg) := EventQueue.push event q now in (set_queue tr (Some q'), lg)
    | None =>
        (tr, catch_onError event (Dispatcher.dispatch (dispatcher tr) event now))
    end.

(** The names for which [prop in target] holds in the proxy returned by
    [createTracker]: the properties of the control object, which take
    priority over the event methods, and the members that the control
    object inherits. *)
Definition control_names : list string :=
  ["setConsent"; "getConsent"; "flush"; "destroy"; "setGlobalMetadata"]%string
  ++ prototype_names.

(** [tracker[areaProp][eventProp]]: the method of an event, or [None]
    where the proxies yield no event method.  [events[areaProp]] is
    reached only with a name that is not inherited, so it reads an own
    property.  [areaEvents[eventProp]] also answers for the inherited
    members; the method made of one throws when it calls [buildPayload],
    which the member has not, and the error (with the message of V8)
    goes to [onError]. *)
Definition method (tr : t) (areaProp eventProp : string)
  : option (option (gmap string JsValue) -> Z -> Time -> t * Log) :=
  if bool_decide (areaProp ∈ control_names) then None
  else
    match events tr !! areaProp with
    | None => None
    | Some areaEvents =>
        match property areaEvents eventProp with
        | None => None
        | Some (Val eventDef) =>
            Some (fun params clock now =>
                    match TrackingEvent.buildPayload eventDef params with
                    | Normal payload =>
                        dispatchEvent tr clock now (TrackingEvent.key eventDef)
                          areaProp eventProp payload
                    | Thrown m => (tr, [(now, OnError m None)])
                    end)
        | Some (Member _) =>
            Some (fun _ _ now =>
                    (tr, [(now, OnError "eventDef.buildPayload is not a function" None)]))
        end
    end.

(** [setConsent(state)] *)
Definition setConsent (tr : t) (state : gmap string bool) : t :=
  set_consentManager tr (ConsentManager.update (consentManager tr) state).

(** [getConsent()] *)
Definition getConsent (tr : t) : gmap string bool :=
  ConsentManager.getState (consentManager tr).

(** [flush()]: [if (queue) await queue.flush()] *)
Definition flush (tr : t) (now : Time) : t * Run :=
  match queue tr with
  | Some q =>
      let '(q', r) := EventQueue.flush q now in
      (set_queue tr (Some q'), {| settled := await now (settled r); log := log r |})
  | None => (tr, {| settled := At now (Fulfilled tt); log := [] |})
  end.

(** The loop of [destroy()] over the adapters:
    [try { await adapter.destroy?.() } catch (err) { onError(...) }] *)
Fixpoint destroy_each (adapters : list Adapter.t) (now : Time) : Log * Settle unit :=
  match adapters with
  | [] => ([], At now (Fulfilled tt))
  | a :: rest =>
      match Adapter.destroy a with
      | None => destroy_each rest (S now)          (* await undefined *)
      | Some b =>
          match Dispatcher.await_call now b with
          | Never => ([(now, Destroy (Adapter.name a))], Never)
          | At t (Fulfilled _) =>
              let '(lg, p) := destroy_each rest t in
              ((now, Destroy (Adapter.name a)) :: lg, p)
          | At t (Rejected m) =>
              let '(lg, p) := destroy_each rest t in
              ((now, Destroy (Adapter.name a))
                 :: (t, OnError (destroy_error a m) None) :: lg, p)
          end
      end
  end.

(** [destroy()]: [if (queue) await queue.destroy()], then the adapters. *)
Definition destroy (tr : t) (now : Time) : t * Run :=
  match queue tr with
  | Some q =>
      let '(q', r) := EventQueue.destroy q now in
      match await now (settled r) with
      | Never => (set_queue tr (Some q'), {| settled := Never; log := log r |})
      | At t (Rejected m) =>
          (set_queue tr (Some q'), {| settled := At t (Rejected m); log := log r |})
      | At t (Fulfilled _) =>
          let '(lg, p) := destroy_each (adapters tr) t in
          (set_queue tr (Some q'), {| settled := p; log := log r ++ lg |})
      end
  | None =>
      let '(lg, p) := destroy_each (adapters tr) now in
      (tr, {| settled := p; log := lg |})
  end.

(** [setGlobalMetadata(metadata)] *)
Definition setGlobalMetadata (tr : t) (md : gmap string JsValue) : t :=
  set_globalMetadata tr (ConsentManager.assign (globalMetadata tr) md).

End Tracker.

(* ================================================================= *)
(** * Vocabulary of the properties *)

(** The patterns looked up for an event, in the order of the lookup. *)
Definition patterns (event : DispatchedEvent) : list string :=
  [key event; area event; (area event +:+ "::*")%string].

(** The category of the first pattern that has an entry, and the
    default category when none has. *)
Definition category_in_order (cm : ConsentManager.t) (event : DispatchedEvent)
  : ConsentCategory :=
  default (ConsentManager.defaultCategory cm)
    (head (omap (λ k, ConsentManager.mapping cm !! k) (patterns event))).

Definition is_OnFlush (te : Time * Effect) : bool :=
  match te.2 with OnFlush _ => true | _ => false end.

Definition is_UnhandledRejection (te : Time * Effect) : bool :=
  match te.2 with UnhandledRejection _ => true | _ => false end.

(** A release callback that does not call back into the queue. *)
Definition passive
    (cb : list DispatchedEvent -> Time -> Log * Completion (Settle unit)) : Prop :=
  ∀ batch now, List.filter is_OnFlush (cb batch now).1 = [].

(** The effects of the callback invoked by a flush whose promise is
    dropped. *)
Definition released (q : EventQueue.t) (batch : list DispatchedEvent) (now : Time) : Log :=
  match EventQueue.onFlush q batch now with
  | (lg, Thrown m) => lg ++ [(now, UnhandledRejection m)]
  | (lg, Normal p) => lg ++ unhandled (await now p)
  end.

(** A middleware that forwards: it calls [next] exactly once. *)
Definition forwards (mw : Middleware) : Prop := ∀ x, length (mw x) = 1.

(** A middleware that never calls [next]. *)
Definition declines (mw : Middleware) : Prop := ∀ x, mw x = [].

(** When and how a call to an adapter method made at time [now]
    completes: at once when it throws or returns [undefined], with the
    returned promise otherwise. *)
Definition completion (now : Time) (b : CallBehaviour) : Settle unit :=
  match call_result now b with
  | Thrown m => At now (Rejected m)
  | Normal p => p
  end.

(** The promise of the task that [dispatch] starts for an adapter. *)
Definition send_promise (finalEvent : DispatchedEvent) (now : Time) (a : Adapter.t)
  : Settle unit :=
  Dispatcher.rethrow (Dispatcher.adapter_error a)
    (Dispatcher.await_call now (Adapter.send a finalEvent)).

(** One call of [send] for each adapter, in the order of the adapters. *)
Definition send_log (finalEvent : DispatchedEvent) (now : Time) (adapters : list Adapter.t)
  : Log :=
  map (λ a, (now, Send (Adapter.name a) finalEvent)) adapters.

(** [part] occurs in [msg]. *)
Definition mentions (msg part : string) : bool :=
  match String.index 0 part msg with Some _ => true | None => false end.




(* ----------------------------------------------------------------- *)
(** ** The statements of the specification that the code does not meet *)

(** [dispatch] settles only after the [send] of every adapter has
    completed. *)
Definition waits_for_every_send (d : Dispatcher.t) (event : DispatchedEvent) (now : Time)
  : Prop :=
  ∀ t finalEvent T o,
    await now (Dispatcher.runMiddleware (Dispatcher.middlewareChain d) event now)
      = At t (Fulfilled (Some finalEvent)) →
    settled (Dispatcher.dispatch d event now) = At T o →
    ∀ a, a ∈ Dispatcher.adapters d →
      ∃ c o', completion t (Adapter.send a finalEvent) = At c o' ∧ c ≤ T.

(** The result of [dispatch] holds the error of every adapter that
    failed. *)
Definition reports_every_failure (d : Dispatcher.t) (event : DispatchedEvent) (now : Time)
  : Prop :=
  ∀ t finalEvent a c cause,
    await now (Dispatcher.runMiddleware (Dispatcher.middlewareChain d) event now)
      = At t (Fulfilled (Some finalEvent)) →
    a ∈ Dispatcher.adapters d →
    completion t (Adapter.send a finalEvent) = At c (Rejected cause) →
    ∃ T msg, settled (Dispatcher.dispatch d event now) = At T (Rejected msg) ∧
             mentions msg cause = true.

(** A first middleware that calls [next] more than once makes the
    dispatch of the event fail with an error. *)
Definition misuse_fails_delivery (d : Dispatcher.t) (event : DispatchedEvent) (now : Time)
  : Prop :=
  ∀ first rest,
    Dispatcher.middlewareChain d = first :: rest →
    2 ≤ length (first event) →
    ∃ T msg, settled (Dispatcher.dispatch d event now) = At T (Rejected msg).


(* ----------------------------------------------------------------- *)
(** ** Concrete inputs *)

Definition pass : Middleware := λ e, [e].
Definition decline : Middleware := λ _, [].
Definition twice : Middleware := λ e, [e; e].

(** An adapter with only [send], which behaves the same on every event. *)
Definition adapter_with (name : string) (b : CallBehaviour) : Adapter.t :=
  Adapter.mk name None (λ _, b) None None.

Definition login_event : DispatchedEvent :=
  mkEvent "auth::login" "auth" "login" ∅ 1000%Z ∅.

Definition logout_event : DispatchedEvent :=
  mkEvent "auth::logout" "auth" "logout" ∅ 2000%Z ∅.

(** A catalog with one event, [tracker.auth.login()], under the given key. *)
Definition catalog_with_key (k : string) : gmap string (gmap string TrackingEvent.t) :=
  {[ "auth"%string :=
       {[ "login"%string := TrackingEvent.mk k ∅ (λ _, Normal ∅) ]} ]}.

(** A configuration that grants [analytics]. *)
Definition config_with (catalog : gmap string (gmap string TrackingEvent.t))
    (adapters : list Adapter.t) (queue : option QueueConfig.t) : TrackerConfig.t :=
  TrackerConfig.mk catalog adapters None
    (Some (ConsentConfig.mk (Some {[ "analytics"%string := true ]}) None None))
    queue None.

(** A release callback that only returns. *)
Definition idle_callback (batch : list DispatchedEvent) (now : Time)
  : Log * Completion (Settle unit) :=
  ([], Normal (At now (Fulfilled tt))).

(* ================================================================= *)
(** ** debug.ts *)

Module Debug.

Record DebugOptions : Type := mk {
  logger : bool;                    (* whether a logger is given *)
  areas : option (list string);
  showPayload : option bool;
}.

(** What the logger does: the call of the logger given in the options,
    or [console.log] of the default logger with the payload or [''] as
    second argument. *)
Inductive Output : Type :=
| Logger (message : string) (event : DispatchedEvent)
| ConsoleLog (text : string) (shown : option (gmap string JsValue)).

(** [logger(msg, event)] with [logger = options?.logger ?? ((msg, event) =>
    console.log(`[opentp] ${msg}`, options?.showPayload !== false ? event.payload : ''))] *)
Definition log_call (options : option DebugOptions) (msg : string)
    (event : DispatchedEvent) : Output :=
  match options with
  | Some o =>
      if logger o then Logger msg event
      else ConsoleLog ("[opentp] " +:+ msg)
             (match showPayload o with
              | Some false => None
              | _ => Some (payload event)
              end)
  | None => ConsoleLog ("[opentp] " +:+ msg) (Some (payload event))
  end.

(** [areas = options?.areas ? new Set(options.areas) : null] *)
Definition area_set (options : option DebugOptions) : option (list string) :=
  options ≫= areas.

(** [debugMiddleware(options)] invoked on an event: what it logs and the
    calls of [next] it makes. *)
Definition debugMiddleware (options : option DebugOptions) (event : DispatchedEvent)
  : list Output * list DispatchedEvent :=
  match area_set options with
  | Some selected =>
      if bool_decide (area event ∈ selected)
      then ([log_call options ("📊 " +:+ key event) event], [event])
      else ([], [event])
  | None => ([log_call options ("📊 " +:+ key event) event], [event])
  end.

(** The middleware as the chain sees it. *)
Definition middleware (options : option DebugOptions) : Middleware :=
  λ event, (debugMiddleware options event).2.

End Debug.

(* ================================================================= *)
(** ** adapters *)

(** A read with a name taken from the configuration or from the event
    ([payload[field]], [eventNameMap[event.key]]) also yields the members
    inherited from [Object.prototype] ([Js.property]); a read with a
    fixed name ([payload.event_name]) yields own properties only, no
    such name being inherited; and [Object.entries] lists own
    properties. *)

(** [value === undefined || value === null] *)
Definition is_null (value : JsValue) : bool :=
  match value with
  | JNull => true
  | _ => false
  end.

(** What was read, when it is neither [undefined] nor [null]. *)
Definition non_null (read : option (Got JsValue)) : option (Got JsValue) :=
  match read with
  | Some (Val JNull) => None
  | _ => read
  end.

(** Truthiness of a string: every string but the empty one. *)
Definition truthy (s : string) : bool :=
  match s with
  | EmptyString => false
  | String _ _ => true
  end.

(** [typeof value === 'string'] *)
Definition as_string (value : option JsValue) : option string :=
  match value with
  | Some (JStr s) => Some s
  | _ => None
  end.

(** [map[key]] used as a condition and then returned: the entry when it
    is a non-empty string, and the inherited member of that name, which
    is truthy, when the map has no entry of its own. *)
Definition truthy_entry (map : gmap string string) (k : string) : option (Got string) :=
  match property map k with
  | Some (Val s) => if truthy s then Some (Val s) else None
  | Some (Member name) => Some (Member name)
  | None => None
  end.

(** The string that a template literal makes of what was read as a
    string. *)
Definition text (v : Got string) : string :=
  match v with
  | Val s => s
  | Member name => member_text name
  end.

Definition is_colon (c : ascii) : bool := Ascii.eqb c ":"%char.

(** [s.replace('::', '_')]: the first occurrence, from the left, of the
    separator is replaced. *)
Fixpoint replace_separator (s : string) : string :=
  match s with
  | EmptyString => EmptyString
  | String c rest =>
      match rest with
      | String c' rest' =>
          if is_colon c && is_colon c'
          then String "_"%char rest'
          else String c (replace_separator rest)
      | EmptyString => String c EmptyString
      end
  end.

(** An async function whose body awaits one call and then returns: a
    throw of the call rejects the promise at once, and the promise
    settles one turn after the awaited one. *)
Definition awaited (b : CallBehaviour) : CallBehaviour :=
  match b with
  | Throws m => Rejects 0 m
  | Returns => Fulfils 1
  | Fulfils d => Fulfils (S d)
  | Rejects d m => Rejects (S d) m
  | Pends => Pends
  end.

(* ----------------------------------------------------------------- *)
(** *** adapters/snowplow.ts *)

Module Snowplow.

Inductive Mode : Type :=
| BrowserTracker
| Http.

Record ContextDef : Type := mkContextDef {
  fields : list string;
  version : option string;
}.

(** [{ schema, data }]: a self-describing event or a context entity.
    The data of a context can hold inherited members beside values of
    the payload. *)
Record Entity : Type := mkEntity {
  schema : string;
  data : gmap string (Got JsValue);
}.

(** The argument of [trackSelfDescribingEvent]. *)
Record TrackArgs : Type := mkTrackArgs {
  event : Entity;
  context : option (list Entity);
}.

(** One item of the [data] array posted to the collector.  The fields
    [e: 'ue'] and [p: 'web'] and the envelope schemas are constants; the
    item keeps what [JSON.stringify] is applied to, not the text. *)
Record DataItem : Type := mkDataItem {
  ue_pr : Entity;
  co : option (list Entity);
  dtm : Z;
  aid : option string;
}.

(** A [POST] to the collector: the URL and the [data] array of its body. *)
Record Request : Type := mkRequest {
  url : string;
  items : list DataItem;
}.

(** [contexts] holds the entries of the object in the order in which
    [Object.entries] enumerates them; [trackSelfDescribingEvent] tells
    whether the function is given; [fetch] is the function the adapter
    ends up with ([config.fetch ?? globalThis.fetch]), if any, described
    by what a call of it does. *)
Record SnowplowConfig : Type := mk {
  mode : Mode;
  vendor : string;
  defaultSchemaVersion : option string;
  schemaVersionMap : option (gmap string string);
  contexts : option (list (string * ContextDef));
  excludeFields : option (list string);
  resolveSchemaName : option (DispatchedEvent -> string);
  trackSelfDescribingEvent : bool;
  collectorUrl : option string;
  fetch : option (Request -> CallBehaviour);
  appId : option string;
}.

(** What the adapter does to the outside world. *)
Inductive Output : Type :=
| Track (args : TrackArgs)
| Warn (msg : string)
| Fetch (request : Request).

Definition buildSchemaUri (vendor name version : string) : string :=
  "iglu:" +:+ vendor +:+ "/" +:+ name +:+ "/jsonschema/" +:+ version.

(** The defaults of the destructuring of the configuration. *)
Definition the_defaultSchemaVersion (config : SnowplowConfig) : string :=
  default "1-0-0" (defaultSchemaVersion config).

Definition the_schemaVersionMap (config : SnowplowConfig) : gmap string string :=
  default ∅ (schemaVersionMap config).

Definition contextDefs (config : SnowplowConfig) : list (string * ContextDef) :=
  default [] (contexts config).

Definition excludeSet (config : SnowplowConfig) : list string :=
  default ["event_name"; "schema_vendor"; "schema_version"] (excludeFields config).

(** Every field used in a context. *)
Definition contextFieldSet (config : SnowplowConfig) : list string :=
  concat (map (λ ctx : string * ContextDef, fields ctx.2) (contextDefs config)).

Definition getSchemaName (config : SnowplowConfig) (event : DispatchedEvent) : string :=
  match resolveSchemaName config with
  | Some resolve => resolve event
  | None =>
      match as_string (payload event !! "event_name") with
      | Some name => name
      | None => area event +:+ "_" +:+ eventName event
      end
  end.

Definition getSchemaVersion (config : SnowplowConfig) (event : DispatchedEvent)
  : Got string :=
  match truthy_entry (the_schemaVersionMap config) (key event) with
  | Some v => v
  | None =>
      match as_string (payload event !! "schema_version") with
      | Some v => Val v
      | None => Val (the_defaultSchemaVersion config)
      end
  end.

(** The main event data: the payload without the excluded fields,
    without the fields of the contexts and without the properties that
    hold [null] or [undefined].  The loop goes over the own properties
    of the payload and writes them with [data[key] = value], which makes
    no property of the key [__proto__] ([Js.put]). *)
Definition buildEventData (config : SnowplowConfig) (event : DispatchedEvent)
  : gmap string JsValue :=
  filter (λ kv : string * JsValue,
            (kv.1 ∉ excludeSet config) ∧ (kv.1 ∉ contextFieldSet config) ∧
            is_null kv.2 = false ∧ kv.1 ≠ "__proto__"%string)
         (payload event).

(** [event.payload[field]] when it is neither [undefined] nor [null]. *)
Definition read_field (event : DispatchedEvent) (field : string)
  : option (Got JsValue) :=
  non_null (property (payload event) field).

(** The inner loop of [buildContexts]: [data] and [hasData] after the
    fields of one context. *)
Definition context_data (event : DispatchedEvent) (fs : list string)
  : gmap string (Got JsValue) * bool :=
  foldl (λ (acc : gmap string (Got JsValue) * bool) field,
           match read_field event field with
           | Some v => (put acc.1 field v, true)
           | None => acc
           end)
        (∅, false) fs.

Definition buildContexts (config : SnowplowConfig) (event : DispatchedEvent)
  : list Entity :=
  omap (λ ctx : string * ContextDef,
          let '(d, hasData) := context_data event (fields ctx.2) in
          if hasData
          then Some (mkEntity
                       (buildSchemaUri (vendor config) ctx.1
                          (default (the_defaultSchemaVersion config) (version ctx.2)))
                       d)
          else None)
       (contextDefs config).

(** [contexts.length > 0 ? contexts : undefined] *)
Definition some_contexts (cs : list Entity) : option (list Entity) :=
  match cs with
  | [] => None
  | _ :: _ => Some cs
  end.

Definition selfDescribingEvent (config : SnowplowConfig) (event : DispatchedEvent)
  : Entity :=
  mkEntity
    (buildSchemaUri (vendor config) (getSchemaName config event)
       (text (getSchemaVersion config event)))
    (Val <$> buildEventData config event).

(** [tracker] tells whether [trackFn ?? getWindowTracker()] is a
    function; the function is taken to return normally. *)
Definition sendViaBrowserTracker (config : SnowplowConfig) (tracker : bool)
    (event : DispatchedEvent) : list Output :=
  if tracker
  then [Track (mkTrackArgs (selfDescribingEvent config event)
                 (some_contexts (buildContexts config event)))]
  else [Warn ("[opentp/snowplow] trackSelfDescribingEvent not found. " +:+
              "Is @snowplow/browser-tracker loaded?")].

Definition data_item (config : SnowplowConfig) (event : DispatchedEvent) : DataItem :=
  mkDataItem (selfDescribingEvent config event)
    (some_contexts (buildContexts config event))
    (timestamp event) (appId config).

Definition tp2 (collector : string) : string :=
  collector +:+ "/com.snowplowanalytics.snowplow/tp2".

(** [collectorUrl] when it is truthy. *)
Definition collector (config : SnowplowConfig) : option string :=
  match collectorUrl config with
  | Some u => if truthy u then Some u else None
  | None => None
  end.

Definition sendViaHttp (config : SnowplowConfig) (event : DispatchedEvent)
  : list Output * CallBehaviour :=
  match collector config with
  | None => ([], Rejects 0 "[opentp/snowplow] collectorUrl is required for http mode")
  | Some u =>
      match fetch config with
      | None => ([], Rejects 0 "[opentp/snowplow] fetch() not available")
      | Some fetchFn =>
          let request := mkRequest (tp2 u) [data_item config event] in
          ([Fetch request], awaited (fetchFn request))
      end
  end.

Definition sendBatchViaHttp (config : SnowplowConfig) (events : list DispatchedEvent)
  : list Output * CallBehaviour :=
  match collector config, fetch config with
  | Some u, Some fetchFn =>
      let request := mkRequest (tp2 u) (map (data_item config) events) in
      ([Fetch request], awaited (fetchFn request))
  | _, _ => ([], Fulfils 0)
  end.

(** The methods of the adapter. *)
Definition send (config : SnowplowConfig) (tracker : bool) (event : DispatchedEvent)
  : list Output * CallBehaviour :=
  match mode config with
  | BrowserTracker => (sendViaBrowserTracker config tracker event, Returns)
  | Http => sendViaHttp config event
  end.

Definition sendBatch (config : SnowplowConfig) (tracker : bool)
    (events : list DispatchedEvent) : list Output * CallBehaviour :=
  match mode config with
  | Http => sendBatchViaHttp config events
  | BrowserTracker =>
      (concat (map (sendViaBrowserTracker config tracker) events), Returns)
  end.

(** The adapter as the dispatcher sees it. *)
Definition adapter (config : SnowplowConfig) (tracker : bool) : Adapter.t :=
  Adapter.mk "snowplow" None
    (λ event, (send config tracker event).2)
    (Some (λ events, (sendBatch config tracker events).2))
    (Some Returns).

End Snowplow.

(* ----------------------------------------------------------------- *)
(** *** adapters/ga4.ts *)

Module GA4.

(** The name under which an event is sent, with [eventNameMap = {}] when
    the configuration has none. *)
Definition resolveEventName (eventNameMap : option (gmap string string))
    (event : DispatchedEvent) : Got string :=
  match truthy_entry (default ∅ eventNameMap) (key event) with
  | Some name => name
  | None =>
      match as_string (payload event !! "event_name") with
      | Some name => Val name
      | None => Val (replace_separator (key event))
      end
  end.

End GA4.

(* ----------------------------------------------------------------- *)
(** *** adapters/amplitude.ts *)

Module Amplitude.

(** The body of a [POST] to the HTTP API, before [JSON.stringify], and
    the endpoint it goes to.  [E] is the type of the event objects. *)
Record Request (E : Type) : Type := mkRequest {
  url : string;
  api_key : string;
  events : list E;
  min_id_length : option Z;
}.
Arguments mkRequest {E}.
Arguments url {E}.
Arguments api_key {E}.
Arguments events {E}.
Arguments min_id_length {E}.

(** What a call of [fetch] leads to: a response that is [ok], a response
    that is not, with its status and the text of its body if reading it
    succeeds, a failure (a throw or a rejection), or a promise that
    stays pending. *)
Inductive Response : Type :=
| Ok
| NotOk (status : Z) (text : option string)
| Fails (msg : string)
| Hangs.

(** How the promise of a send ends. *)
Inductive Result : Type :=
| Resolved
| RejectedWith (msg : string)
| Unsettled.

(** What the adapter does to the outside world; [WarnApiError] is the
    [console.warn] of the default handler of a response that is not
    [ok]. *)
Inductive Output (E : Type) : Type :=
| Post (request : Request E)
| OnSendError (status : Z) (body : string)
| WarnApiError (status : Z) (body : string)
| ConsoleWarn (text : string)
| Track (eventType : Got string) (eventProperties : option (gmap string JsValue)).
Arguments Post {E}.
Arguments OnSendError {E}.
Arguments WarnApiError {E}.
Arguments ConsoleWarn {E}.
Arguments Track {E}.

(** A field name of the configuration is a string, [null], or not given. *)
Inductive FieldName : Type :=
| NotGiven
| Null
| Name (field : string).

(** [fetch] is the function the adapter ends up with, if any, described
    by what a call of it leads to; [onSendError] tells whether the
    handler is given; [maxBatchSize] is an integer.  The fields that
    only [buildAmplitudeEvent] reads are left out. *)
Record AmplitudeConfig (E : Type) : Type := mk {
  apiKey : string;
  endpoint : option string;
  fetch : option (Request E -> Response);
  maxBatchSize : option Z;
  eventNameMap : option (gmap string string);
  userIdField : FieldName;
  deviceIdField : FieldName;
  sessionIdField : FieldName;
  appVersionField : FieldName;
  topLevelFieldMap : option (gmap string string);
  excludeFields : option (list string);
  minIdLength : option Z;
  onSendError : bool;
}.
Arguments mk {E}.
Arguments apiKey {E}.
Arguments endpoint {E}.
Arguments fetch {E}.
Arguments maxBatchSize {E}.
Arguments eventNameMap {E}.
Arguments userIdField {E}.
Arguments deviceIdField {E}.
Arguments sessionIdField {E}.
Arguments appVersionField {E}.
Arguments topLevelFieldMap {E}.
Arguments excludeFields {E}.
Arguments minIdLength {E}.
Arguments onSendError {E}.

Definition DEFAULT_ENDPOINT : string := "https://api2.amplitude.com/2/httpapi".
Definition DEFAULT_MAX_BATCH : Z := 2000.
Definition ALWAYS_EXCLUDED : list string := ["event_name"].

(** A field name after the default of the destructuring, when it is
    truthy. *)
Definition field_in_force (dflt : string) (f : FieldName) : list string :=
  match f with
  | NotGiven => [dflt]
  | Null => []
  | Name s => if truthy s then [s] else []
  end.

(** The fields kept out of [event_properties]. *)
Definition excludeSet {E} (config : AmplitudeConfig E) : list string :=
  ALWAYS_EXCLUDED ++ default [] (excludeFields config) ++
  field_in_force "user_id" (userIdField config) ++
  field_in_force "device_id" (deviceIdField config) ++
  field_in_force "session_id" (sessionIdField config) ++
  field_in_force "app_version" (appVersionField config) ++
  (map_to_list (default ∅ (topLevelFieldMap config))).*1.

Definition resolveEventType {E} (config : AmplitudeConfig E) (event : DispatchedEvent)
  : Got string :=
  match truthy_entry (default ∅ (eventNameMap config)) (key event) with
  | Some name => name
  | None =>
      match as_string (payload event !! "event_name") with
      | Some name => Val name
      | None => Val (replace_separator (key event))
      end
  end.

(** The loop that builds [eventProperties]: it goes over the own
    properties of the payload, skips those that hold [null] or
    [undefined], and writes the others with
    [eventProperties[key] = value], which makes no property of the key
    [__proto__] ([Js.put]). *)
Definition eventProperties {E} (config : AmplitudeConfig E) (event : DispatchedEvent)
  : gmap string JsValue :=
  filter (λ kv : string * JsValue,
            (kv.1 ∉ excludeSet config) ∧ is_null kv.2 = false ∧
            kv.1 ≠ "__proto__"%string)
         (payload event).

(** [amp] tells whether [getAmplitude()] finds an instance; its [track]
    is taken to return normally. *)
Definition sendViaBrowserSdk {E} (config : AmplitudeConfig E) (amp : bool)
    (event : DispatchedEvent) : list (Output E) :=
  if amp
  then
    let props := eventProperties config event in
    [Track (resolveEventType config event)
       (if bool_decide (props = ∅) then None else Some props)]
  else [ConsoleWarn ("[opentp/amplitude] Amplitude SDK not found. " +:+
                     "Is the Amplitude Browser SDK loaded?")].

(** The endpoint and the body of the request that carries [evs]. *)
Definition request_of {E} (config : AmplitudeConfig E) (evs : list E) : Request E :=
  mkRequest (default DEFAULT_ENDPOINT (endpoint config)) (apiKey config) evs
    (minIdLength config).

(** [sendHttpRequest(events)]; the handler of a response that is not
    [ok] is taken to return normally. *)
Definition sendHttpRequest {E} (config : AmplitudeConfig E) (evs : list E)
  : list (Output E) * Result :=
  match fetch config with
  | None => ([], RejectedWith "[opentp/amplitude] fetch() not available")
  | Some fetchFn =>
      let request := request_of config evs in
      match fetchFn request with
      | Ok => ([Post request], Resolved)
      | NotOk status text =>
          let errorBody := default "unknown" text in
          ([Post request;
            if onSendError config
            then OnSendError status errorBody
            else WarnApiError status errorBody],
           Resolved)
      | Fails m => ([Post request], RejectedWith m)
      | Hangs => ([Post request], Unsettled)
      end
  end.

(** One round of the loop of [sendBatch] over the events: the event
    object is pushed on [current], and [current] is moved to [chunks]
    when it has reached [maxBatchSize]. *)
Definition chunk_step {E} (maxBatch : Z) (state : list (list E) * list E) (built : E)
  : list (list E) * list E :=
  let current := state.2 ++ [built] in
  if (maxBatch <=? Z.of_nat (length current))%Z
  then (state.1 ++ [current], [])
  else (state.1, current).

(** The chunks of a batch.  [build] is [buildAmplitudeEvent], which is
    not modelled: it draws [insert_id] from a generator. *)
Definition chunks {E} (config : AmplitudeConfig E) (build : DispatchedEvent -> E)
    (batch : list DispatchedEvent) : list (list E) :=
  let maxBatch := default DEFAULT_MAX_BATCH (maxBatchSize config) in
  let state := foldl (λ st event, chunk_step maxBatch st (build event)) ([], []) batch in
  match state.2 with
  | [] => state.1
  | _ :: _ => state.1 ++ [state.2]
  end.

(** [chunks.reduce((promise, chunk) => promise.then(() =>
    sendHttpRequest(chunk)), Promise.resolve())]: a chunk is sent when
    the requests before it have resolved. *)
Fixpoint send_chunks {E} (config : AmplitudeConfig E) (cs : list (list E))
  : list (Output E) * Result :=
  match cs with
  | [] => ([], Resolved)
  | chunk :: rest =>
      match sendHttpRequest config chunk with
      | (out, Resolved) =>
          let r := send_chunks config rest in (out ++ r.1, r.2)
      | (out, r) => (out, r)
      end
  end.

(** [sendBatch(events)] in http mode. *)
Definition sendBatch {E} (config : AmplitudeConfig E) (build : DispatchedEvent -> E)
    (batch : list DispatchedEvent) : list (Output E) * Result :=
  send_chunks config (chunks config build batch).

End Amplitude.

(* ----------------------------------------------------------------- *)
(** ** Vocabulary of the further properties *)

(** The batches handed to the release callback, in the order of the calls. *)
Definition batches (lg : Log) : list (list DispatchedEvent) :=
  omap (λ te : Time * Effect,
          match te.2 with OnFlush batch => Some batch | _ => None end) lg.

(** What a chain of forwarding middlewares makes of an event: each
    middleware gets the event that its predecessor passed to [next]. *)
Definition through (chain : list Middleware) (event : DispatchedEvent) : DispatchedEvent :=
  foldl (λ x (mw : Middleware), default x (head (mw x))) event chain.

(** What the chain resolves with for an event: the event that survives,
    or [None] when the event is dropped or the chain never resolves. *)
Definition survivor (chain : list Middleware) (event : DispatchedEvent)
  : option DispatchedEvent :=
  match Dispatcher.runMiddleware chain event 0 with
  | At _ (Fulfilled result) => result
  | _ => None
  end.

(** The chain resolves for the event. *)
Definition resolves (chain : list Middleware) (event : DispatchedEvent) : bool :=
  negb (is_never (Dispatcher.runMiddleware chain event 0)).

(** A call that completes successfully, and one that fails. *)
Definition succeeds (b : CallBehaviour) : bool :=
  match b with Returns | Fulfils _ => true | _ => false end.

Definition fails (b : CallBehaviour) : bool :=
  match b with Throws _ | Rejects _ _ => true | _ => false end.

(** The error of a call that fails. *)
Definition failure (b : CallBehaviour) : option string :=
  match b with Throws m | Rejects _ m => Some m | _ => None end.



Definition is_OnError (te : Time * Effect) : bool :=
  match te.2 with OnError _ _ => true | _ => false end.

Definition is_Send (te : Time * Effect) : bool :=
  match te.2 with Send _ _ | SendBatch _ _ => true | _ => false end.

(** The states of [next] for a chain and for the chain with one more
    middleware at its end go together: they are equal as long as the
    chain has not resolved, and they resolve together with the same
    event. *)
Definition together (chain : list Middleware) (st st' : Dispatcher.Chain) : Prop :=
  (Dispatcher.resolved st = false ∧ st' = st ∧ Dispatcher.index st < length chain) ∨
  (Dispatcher.resolved st = true ∧ Dispatcher.resolved st' = true ∧
   Dispatcher.value st' = Dispatcher.value st).

(** A string without a colon. *)
Fixpoint colon_free (s : string) : bool :=
  match s with
  | EmptyString => true
  | String c rest => negb (is_colon c) && colon_free rest
  end.

(** The items a Snowplow adapter posts to the collector and the calls of
    the tracker function it makes, in order. *)
Definition posted_items (outs : list Snowplow.Output) : list Snowplow.DataItem :=
  concat (omap (λ o, match o with
                     | Snowplow.Fetch r => Some (Snowplow.items r)
                     | _ => None
                     end) outs).

Definition tracked (outs : list Snowplow.Output) : list Snowplow.TrackArgs :=
  omap (λ o, match o with Snowplow.Track args => Some args | _ => None end) outs.

Definition requests (outs : list Snowplow.Output) : list Snowplow.Request :=
  omap (λ o, match o with Snowplow.Fetch r => Some r | _ => None end) outs.

(** A field that [payload[field]] answers for with something that is
    neither [undefined] nor [null]: a property of the payload that holds
    a value, or the name of an inherited member that the payload does
    not shadow. *)
Definition readable (event : DispatchedEvent) (field : string) : bool :=
  match Snowplow.read_field event field with
  | Some _ => true
  | None => false
  end.

(** What a context with the fields [fs] holds: for every field that is
    readable, but [__proto__], what the read yields. *)
Definition context_part (event : DispatchedEvent) (fs : list string)
  : gmap string (Got JsValue) :=
  foldr (λ field acc,
           if String.eqb field "__proto__" then acc
           else match Snowplow.read_field event field with
                | Some v => <[field := v]> acc
                | None => acc
                end)
        ∅ fs.

(** The size at which the Amplitude adapter closes a chunk. *)
Definition chunk_size {E} (config : Amplitude.AmplitudeConfig E) : nat :=
  Z.to_nat (Z.max 1 (default Amplitude.DEFAULT_MAX_BATCH (Amplitude.maxBatchSize config))).



(** The fields extracted as identity of the user, the device, the session
    and the application. *)
Definition identity_fields {E} (config : Amplitude.AmplitudeConfig E) : list string :=
  Amplitude.field_in_force "user_id" (Amplitude.userIdField config) ++
  Amplitude.field_in_force "device_id" (Amplitude.deviceIdField config) ++
  Amplitude.field_in_force "session_id" (Amplitude.sessionIdField config) ++
  Amplitude.field_in_force "app_version" (Amplitude.appVersionField config).

(* ================================================================= *)
(** * Properties *)

(* ----------------------------------------------------------------- *)
(** ** Consent gate *)

Section Consent.

Import ConsentManager.

Lemma inherited_elem k : inherited k = true ↔ k ∈ prototype_names.
Proof.
  unfold inherited. rewrite existsb_exists. split.
  - intros (x & Hin & Heq). apply String.eqb_eq in Heq as ->.
    apply list_elem_of_In. exact Hin.
  - intros Hin. exists k. split; [apply list_elem_of_In; exact Hin|apply String.eqb_refl].
Qed.

(** The name of an inherited member has no colon. *)
Lemma inherited_colon_free k : inherited k = true → colon_free k = true.
Proof.
  intros H. apply inherited_elem in H. unfold prototype_names in H.
  repeat (apply elem_of_cons in H as [->|H]; [reflexivity|]).
  inversion H.
Qed.

Lemma wildcard_has_colon a : colon_free (a +:+ "::*") = false.
Proof. induction a as [|c a IH]; [reflexivity|]. simpl. rewrite IH. apply andb_false_r. Qed.

(** No wildcard pattern is the name of an inherited member. *)
Lemma wildcard_not_inherited a : inherited (a +:+ "::*") = false.
Proof.
  destruct (inherited (a +:+ "::*")) eqn:H; [|reflexivity].
  apply inherited_colon_free in H. rewrite wildcard_has_colon in H. discriminate.
Qed.

Lemma property_own {V} (obj : gmap string V) k v :
  obj !! k = Some v → property obj k = Some (Val v).
Proof. intros H. unfold property. rewrite H. reflexivity. Qed.

Lemma property_inherited {V} (obj : gmap string V) k :
  obj !! k = None → inherited k = true → property obj k = Some (Member k).
Proof. intros H Hk. unfold property. rewrite H, Hk. reflexivity. Qed.

Lemma property_none {V} (obj : gmap string V) k :
  obj !! k = None → inherited k = false → property obj k = None.
Proof. intros H Hk. unfold property. rewrite H, Hk. reflexivity. Qed.

(** For an event whose key and area are not names of inherited members
    the category is the one of the first pattern that has an entry. *)
Lemma getCategory_in_order cm event :
  inherited (key event) = false → inherited (area event) = false →
  getCategory cm event = Val (category_in_order cm event).
Proof.
  intros Hk Ha. unfold getCategory, category_in_order, patterns, property.
  rewrite Hk, Ha, wildcard_not_inherited. simpl.
  destruct (mapping cm !! key event) as [c1|]; [reflexivity|].
  destruct (mapping cm !! area event) as [c2|]; [reflexivity|].
  simpl. destruct (mapping cm !! (area event +:+ "::*")%string); reflexivity.
Qed.

Lemma isAllowed_true cm event :
  isAllowed cm event = true ↔
  state cm !! state_key (getCategory cm event) = Some true.
Proof.
  unfold isAllowed; simpl.
  destruct (state cm !! state_key (getCategory cm event)) as [[|]|];
    split; congruence.
Qed.

Lemma new_defaultCategory config :
  defaultCategory (new config)
    = default analytics (config ≫= ConsentConfig.defaultCategory).
Proof. reflexivity. Qed.

(** What [Object.assign] leaves under a name: the property of the
    source, but for [__proto__] on a target that has no such property of
    its own. *)
Lemma object_assign_lookup {V} (target source : gmap string V) c :
  object_assign target source !! c =
    match source !! c with
    | Some v =>
        if String.eqb c "__proto__" && negb (bool_decide (is_Some (target !! c)))
        then None else Some v
    | None => target !! c
    end.
Proof.
  unfold object_assign. revert c.
  apply (map_fold_weak_ind
           (λ r m, ∀ c, r !! c =
              match m !! c with
              | Some v =>
                  if String.eqb c "__proto__" && negb (bool_decide (is_Some (target !! c)))
                  then None else Some v
              | None => target !! c
              end)).
  - intros c. rewrite lookup_empty. reflexivity.
  - intros i x m r Hi IH c.
    pose proof (IH i) as Hri. rewrite Hi in Hri.
    unfold put. rewrite Hri.
    destruct (decide (c = i)) as [->|Hne].
    + rewrite lookup_insert_eq.
      destruct (String.eqb i "__proto__" && negb (bool_decide (is_Some (target !! i))))
        eqn:Hcond.
      * rewrite Hri. apply andb_true_iff in Hcond as [_ Hno].
        apply negb_true_iff, bool_decide_eq_false in Hno.
        destruct (target !! i); [exfalso; apply Hno; eauto|reflexivity].
      * rewrite lookup_insert_eq. reflexivity.
    + rewrite (lookup_insert_ne m) by congruence.
      destruct (String.eqb i "__proto__" && negb (bool_decide (is_Some (target !! i))));
        [apply IH|].
      rewrite lookup_insert_ne by congruence. apply IH.
Qed.

(** The property key of a category is never [__proto__]. *)
Lemma state_key_not_proto category :
  String.eqb (state_key category) "__proto__" = false.
Proof.
  destruct category as [c|name]; [destruct c; reflexivity|].
  unfold state_key, member_text.
  destruct (String.eqb name "__proto__"); [reflexivity|].
  destruct (String.eqb name "constructor"); reflexivity.
Qed.

(** The text of an inherited member is not the name of a category. *)
Lemma member_text_no_category name c :
  inherited name = true → member_text name ≠ category_name c.
Proof.
  intros H. apply inherited_elem in H. unfold prototype_names in H.
  repeat (apply elem_of_cons in H as [->|H]; [destruct c; discriminate|]).
  inversion H.
Qed.

End Consent.

(* ----------------------------------------------------------------- *)
(** ** Batching queue *)

Section Queue.

Import EventQueue.

Lemma released_passive q batch now :
  passive (onFlush q) → List.filter is_OnFlush (released q batch now) = [].
Proof.
  intros Hp. unfold released. specialize (Hp batch now).
  destruct (onFlush q batch now) as [lg [p|m]]; simpl in Hp;
    rewrite List.filter_app, Hp; simpl; [|reflexivity].
  destruct (await now p) as [|? [|]]; reflexivity.
Qed.

Lemma push_below event q now :
  (Z.of_nat (S (length (queue q))) < maxSize q)%Z →
  push event q now = (set_queue q (queue q ++ [event]), []).
Proof.
  intros H. unfold push; simpl. rewrite length_app; simpl.
  replace (length (queue q) + 1) with (S (length (queue q))) by lia.
  destruct (Z.leb_spec (maxSize q) (Z.of_nat (S (length (queue q))))); [lia|reflexivity].
Qed.

Lemma push_reach event q now :
  (maxSize q <= Z.of_nat (S (length (queue q))))%Z →
  push event q now =
    (set_queue q [],
     (now, OnFlush (queue q ++ [event])) :: released q (queue q ++ [event]) now).
Proof.
  intros H. unfold push; simpl. rewrite length_app; simpl.
  replace (length (queue q) + 1) with (S (length (queue q))) by lia.
  destruct (Z.leb_spec (maxSize q) (Z.of_nat (S (length (queue q))))); [|lia].
  unfold flush; simpl. rewrite length_app; simpl.
  replace (length (queue q) + 1 =? 0) with false by (symmetry; apply Nat.eqb_neq; lia).
  unfold released, detach.
  destruct (onFlush q (queue q ++ [event]) now) as [lg [p|m]]; reflexivity.
Qed.

(** Pushes that stay below [maxSize] only fill the buffer. *)
Lemma push_all_below calls : ∀ q,
  (Z.of_nat (length (queue q) + length calls) < maxSize q)%Z →
  push_all calls q = (set_queue q (queue q ++ map snd calls), []).
Proof.
  induction calls as [|[now event] rest IH]; intros q H; simpl.
  - rewrite app_nil_r. destruct q; reflexivity.
  - simpl in H. rewrite push_below by lia.
    rewrite IH by (simpl; rewrite length_app; simpl; lia).
    simpl. rewrite <- app_assoc. reflexivity.
Qed.

Lemma push_all_app calls1 calls2 q :
  push_all (calls1 ++ calls2) q =
    let '(q1, lg1) := push_all calls1 q in
    let '(q2, lg2) := push_all calls2 q1 in
    (q2, lg1 ++ lg2).
Proof.
  revert q. induction calls1 as [|[now event] rest IH]; intros q; simpl.
  - destruct (push_all calls2 q); reflexivity.
  - destruct (push event q now) as [q1 lg1]. rewrite IH.
    destruct (push_all rest q1) as [q2 lg2].
    destruct (push_all calls2 q2) as [q3 lg3]. rewrite app_assoc. reflexivity.
Qed.

(** Filling an empty buffer up to [maxSize]: the callback is invoked
    once, by the last push and at the time of that push, with the
    pushed events in push order. *)
Lemma fill_empty_buffer q calls :
  queue q = [] →
  (0 < maxSize q)%Z →
  Z.of_nat (length calls) = maxSize q →
  passive (onFlush q) →
  ∃ earlier now event,
    calls = earlier ++ [(now, event)] ∧
    push_all earlier q = (set_queue q (map snd earlier), []) ∧
    push event (set_queue q (map snd earlier)) now =
      (q, (now, OnFlush (map snd calls)) :: released q (map snd calls) now) ∧
    List.filter is_OnFlush (push_all calls q).2 = [(now, OnFlush (map snd calls))].
Proof.
  intros Hq Hpos Hlen Hp.
  destruct (exists_last (l := calls)) as (earlier & [now event] & ->).
  { intros ->. simpl in Hlen. lia. }
  rewrite length_app in Hlen; simpl in Hlen.
  assert (Hearlier : push_all earlier q = (set_queue q (map snd earlier), [])).
  { rewrite push_all_below by (rewrite Hq; simpl; lia). rewrite Hq. reflexivity. }
  assert (Hlast : push event (set_queue q (map snd earlier)) now =
            (q, (now, OnFlush (map snd (earlier ++ [(now, event)])))
                  :: released q (map snd (earlier ++ [(now, event)])) now)).
  { rewrite push_reach by (simpl; rewrite length_map; lia).
    simpl. rewrite map_app. simpl. f_equal.
    destruct q; simpl in *; subst; reflexivity. }
  exists earlier, now, event. split; [reflexivity|]. split; [exact Hearlier|].
  split; [exact Hlast|].
  rewrite push_all_app, Hearlier. simpl. rewrite Hlast. simpl.
  rewrite app_nil_r. unfold is_OnFlush at 1; simpl.
  rewrite released_passive by assumption. reflexivity.
Qed.

(** [destroy] stops the timer and empties the buffer; nothing else
    changes. *)
Lemma destroy_state q now :
  (destroy q now).1 = set_queue (set_timer q None) [].
Proof.
  unfold destroy.
  assert (H : ∀ q1, (flush q1 now).1 = set_queue q1 []).
  { intros q1. unfold flush.
    destruct (Nat.eqb_spec (length (queue q1)) 0) as [Hlen|Hlen].
    - apply nil_length_inv in Hlen. destruct q1; simpl in *; subst. reflexivity.
    - destruct (onFlush q1 (queue q1) now) as [lg [p|m]]; reflexivity. }
  destruct (timer q) eqn:Htimer.
  - specialize (H (set_timer q None)).
    destruct (flush (set_timer q None) now) as [q2 r]; simpl in *. exact H.
  - specialize (H q). destruct (flush q now) as [q2 r]; simpl in *.
    rewrite H. destruct q; simpl in *; subst. reflexivity.
Qed.

End Queue.

(* ----------------------------------------------------------------- *)
(** ** Middleware chain *)

Section Chain.

Import Dispatcher.

Variable chain : list Middleware.

Lemma next_eq fuel st e :
  next fuel chain st e =
    if resolved st then st
    else if length chain <=? S (index st) then
      {| resolved := true; index := S (index st); value := Some e |}
    else
      let st' := {| resolved := false; index := S (index st); value := value st |} in
      match fuel, chain !! S (index st) with
      | S fuel', Some mw => foldl (next fuel' chain) st' (mw e)
      | _, _ => st'
      end.
Proof. destruct fuel; reflexivity. Qed.

(** Once the chain has resolved, [next] does nothing. *)
Lemma next_resolved fuel st e :
  resolved st = true → next fuel chain st e = st.
Proof. intros H. rewrite next_eq, H. reflexivity. Qed.

Lemma foldl_next_resolved fuel calls : ∀ st,
  resolved st = true → foldl (next fuel chain) st calls = st.
Proof.
  induction calls as [|e rest IH]; intros st H; simpl; [reflexivity|].
  rewrite next_resolved by assumption. apply IH, H.
Qed.

(** [index] never decreases. *)
Lemma next_index_mono fuel : ∀ st e, index st ≤ index (next fuel chain st e).
Proof.
  induction fuel as [|fuel IH]; intros st e; rewrite next_eq;
    destruct (resolved st); simpl; try lia;
    destruct (length chain <=? S (index st)); simpl; try lia.
  destruct (chain !! S (index st)) as [mw|]; simpl; [|lia].
  generalize (mw e). intros calls.
  enough (H : ∀ s, S (index st) ≤ index s →
                   S (index st) ≤ index (foldl (next fuel chain) s calls)).
  { specialize (H {| resolved := false; index := S (index st); value := value st |}).
    simpl in H. lia. }
  induction calls as [|c rest IHc]; intros s Hs; simpl; [exact Hs|].
  apply IHc. specialize (IH s c). lia.
Qed.

(** The fuel is enough as soon as it covers the middlewares not yet
    invoked; more fuel does not change the result. *)
Lemma next_fuel fuel1 : ∀ fuel2 st e,
  length chain ≤ fuel1 + S (index st) →
  length chain ≤ fuel2 + S (index st) →
  next fuel1 chain st e = next fuel2 chain st e.
Proof.
  induction fuel1 as [|fuel1 IH]; intros fuel2 st e H1 H2; rewrite !next_eq;
    destruct (resolved st); try reflexivity;
    destruct (Nat.leb_spec (length chain) (S (index st))); try reflexivity;
    try lia.
  destruct fuel2 as [|fuel2]; [lia|].
  destruct (chain !! S (index st)) as [mw|]; [|reflexivity]. simpl.
  generalize (mw e). intros calls.
  enough (Hfold : ∀ s, S (index st) ≤ index s →
            foldl (next fuel1 chain) s calls = foldl (next fuel2 chain) s calls).
  { apply Hfold. simpl. lia. }
  induction calls as [|c rest IHc]; intros s Hs; simpl; [reflexivity|].
  rewrite (IH fuel2 s c) by lia. apply IHc.
  pose proof (next_index_mono fuel2 s c). lia.
Qed.


(** The fuel given to [next] by [runMiddleware] is enough: a larger
    amount yields the same state. *)
Lemma runMiddleware_fuel fuel calls :
  length chain ≤ fuel →
  foldl (next fuel chain) {| resolved := false; index := 0; value := None |} calls =
  foldl (next (length chain) chain) {| resolved := false; index := 0; value := None |} calls.
Proof.
  intros Hfuel. generalize {| resolved := false; index := 0; value := None |}.
  induction calls as [|c rest IH]; intros st; simpl; [reflexivity|].
  rewrite (next_fuel fuel (length chain)) by lia. apply IH.
Qed.

End Chain.

Section Decline.

Import Dispatcher.

Lemma next_through_forwarders pre decl post :
  Forall forwards pre → declines decl →
  ∀ k fuel e v, 1 ≤ k ≤ length pre → k ≤ fuel →
    next fuel (pre ++ decl :: post)
      {| resolved := false; index := length pre - k; value := v |} e =
    {| resolved := false; index := length pre; value := v |}.
Proof.
  intros Hpre Hdecl. induction k as [|k IH]; intros fuel e v Hk Hfuel; [lia|].
  rewrite next_eq; simpl.
  replace (S (length pre - S k)) with (length pre - k) by lia.
  rewrite length_app; simpl.
  destruct (Nat.leb_spec (length pre + S (length post)) (length pre - k)); [lia|].
  destruct fuel as [|fuel]; [lia|].
  destruct k as [|k].
  - rewrite Nat.sub_0_r, list_lookup_middle by reflexivity.
    rewrite Hdecl. reflexivity.
  - destruct (lookup_lt_is_Some_2 pre (length pre - S k)) as [mw Hmw]; [lia|].
    rewrite lookup_app_l by lia. rewrite Hmw.
    assert (Hf : forwards mw).
    { rewrite Forall_forall in Hpre. apply Hpre.
      eapply list_elem_of_lookup_2; exact Hmw. }
    specialize (Hf e). destruct (mw e) as [|y [|? ?]]; simpl in Hf; try lia.
    simpl. apply IH; lia.
Qed.

(** The first middleware declines: the timer resolves the chain with
    [null] one turn later. *)
Lemma runMiddleware_decline_first mw rest event now :
  mw event = [] →
  runMiddleware (mw :: rest) event now = At (S now) (Fulfilled None).
Proof. intros H. unfold runMiddleware. rewrite H. reflexivity. Qed.

(** A middleware declines after at least one forwarding middleware:
    [index] is no longer [0] when the timer fires, and the promise of the
    chain is never resolved. *)
Lemma runMiddleware_decline_later pre decl post event now :
  pre ≠ [] → Forall forwards pre → declines decl →
  runMiddleware (pre ++ decl :: post) event now = Never.
Proof.
  intros Hne Hpre Hdecl. unfold runMiddleware.
  destruct pre as [|first pre']; [congruence|].
  change ((first :: pre') ++ decl :: post) with (first :: pre' ++ decl :: post) at 1.
  cbv beta iota.
  pose proof (Forall_inv Hpre event) as Hfirst.
  destruct (first event) as [|y [|? ?]]; simpl in Hfirst; try lia.
  cbn [foldl].
  pose proof (next_through_forwarders (first :: pre') decl post Hpre Hdecl
                (length (first :: pre')) (length ((first :: pre') ++ decl :: post)) y None) as H.
  rewrite Nat.sub_diag in H. rewrite H.
  - reflexivity.
  - simpl. lia.
  - rewrite length_app. lia.
Qed.

Lemma dispatch_decline_first adapters mw rest event now :
  mw event = [] →
  dispatch (mk adapters (mw :: rest)) event now =
    {| settled := At (S (S now)) (Fulfilled tt); log := [] |}.
Proof.
  intros H. unfold dispatch; simpl middlewareChain.
  rewrite runMiddleware_decline_first by assumption. unfold await.
  rewrite Nat.max_l by lia. reflexivity.
Qed.

Lemma dispatch_decline_later adapters pre decl post event now :
  pre ≠ [] → Forall forwards pre → declines decl →
  dispatch (mk adapters (pre ++ decl :: post)) event now =
    {| settled := Never; log := [] |}.
Proof.
  intros Hne Hpre Hdecl. unfold dispatch; simpl middlewareChain.
  rewrite runMiddleware_decline_later by assumption. reflexivity.
Qed.

End Decline.

(* ----------------------------------------------------------------- *)
(** ** Fan-out *)

Section FanOut.

Import Dispatcher.

Lemma first_rejection_none {A} (ps : list (Settle A)) :
  first_rejection ps = None → ∀ t m, At t (Rejected m) ∉ ps.
Proof.
  induction ps as [|p rest IH]; intros H t m Hin.
  - inversion Hin.
  - simpl in H. apply elem_of_cons in Hin as [<-|Hin].
    + destruct (first_rejection rest) as [[? ?]|]; [|discriminate].
      destruct (_ <? _); discriminate.
    + destruct p as [|tp [a|mp]]; try (eapply IH; eauto; fail).
      destruct (first_rejection rest) as [[? ?]|]; [|discriminate].
      destruct (_ <? _); discriminate.
Qed.

Lemma first_rejection_some {A} (ps : list (Settle A)) t m :
  first_rejection ps = Some (t, m) →
  At t (Rejected m) ∈ ps ∧ ∀ t' m', At t' (Rejected m') ∈ ps → t ≤ t'.
Proof.
  revert t m. induction ps as [|p rest IH]; intros t m H; [discriminate|].
  simpl in H.
  destruct p as [|tp [a|mp]].
  - destruct (IH _ _ H) as [Hin Hmin]. split; [right; exact Hin|].
    intros t' m' Hin'. apply elem_of_cons in Hin' as [?|?]; [discriminate|eauto].
  - destruct (IH _ _ H) as [Hin Hmin]. split; [right; exact Hin|].
    intros t' m' Hin'. apply elem_of_cons in Hin' as [?|?]; [discriminate|eauto].
  - destruct (first_rejection rest) as [[tr mr]|] eqn:Hrest.
    + destruct (IH _ _ eq_refl) as [Hin Hmin].
      destruct (Nat.ltb_spec tr tp); injection H as <- <-.
      * split; [right; exact Hin|].
        intros t' m' Hin'. apply elem_of_cons in Hin' as [[= <- <-]|?]; [lia|eauto].
      * split; [left|].
        intros t' m' Hin'. apply elem_of_cons in Hin' as [[= <- <-]|Hin']; [lia|].
        specialize (Hmin _ _ Hin'). lia.
    + injection H as <- <-. split; [left|].
      intros t' m' Hin'. apply elem_of_cons in Hin' as [[= <- <-]|Hin']; [lia|].
      exfalso. eapply first_rejection_none; eauto.
Qed.

Lemma settle_time_le_max {A} (ps : list (Settle A)) p :
  p ∈ ps → settle_time p ≤ list_max (map settle_time ps).
Proof.
  induction ps as [|q rest IH]; intros Hin; [inversion Hin|].
  simpl. apply elem_of_cons in Hin as [->|Hin]; [lia|].
  specialize (IH Hin). lia.
Qed.

(** [Promise.all] fulfils only when every element has fulfilled, and
    after all of them. *)
Lemma promise_all_fulfilled now (ps : list (Settle unit)) T :
  promise_all now ps = At T (Fulfilled tt) →
  ∀ p, p ∈ ps → ∃ c, p = At c (Fulfilled tt) ∧ c < T.
Proof.
  unfold promise_all. intros H p Hin.
  destruct (first_rejection ps) as [[? ?]|] eqn:Hrej; [discriminate|].
  destruct (existsb is_never ps) eqn:Hnever; [discriminate|].
  destruct ps as [|p0 rest] eqn:Hps; [inversion Hin|]. rewrite <- Hps in *.
  injection H as <-.
  destruct p as [|c [[]|m]].
  - exfalso. assert (existsb is_never ps = true); [|congruence].
    apply existsb_exists. exists Never. split; [apply list_elem_of_In; exact Hin|reflexivity].
  - exists c. split; [reflexivity|].
    pose proof (settle_time_le_max ps _ Hin) as Hle. simpl in Hle. lia.
  - exfalso. eapply first_rejection_none; eauto.
Qed.

(** [Promise.all] rejects with the error of an element that is rejected
    before or together with all other rejected elements, one turn after
    that element. *)
Lemma promise_all_rejected now (ps : list (Settle unit)) T msg :
  promise_all now ps = At T (Rejected msg) →
  ∃ w, At w (Rejected msg) ∈ ps ∧ T = S (Nat.max w now) ∧
       ∀ w' m', At w' (Rejected m') ∈ ps → w ≤ w'.
Proof.
  unfold promise_all. intros H.
  destruct (first_rejection ps) as [[w m]|] eqn:Hrej.
  - injection H as <- <-. apply first_rejection_some in Hrej as [Hin Hmin].
    exists w. auto.
  - destruct (existsb is_never ps); [discriminate|].
    destruct ps; discriminate.
Qed.

(** The arrow function of [dispatch] is async: mapping it over the
    adapters never aborts, whatever the adapters throw. *)
Lemma js_map_send_task finalEvent now adapters :
  js_map (send_task finalEvent now) adapters =
    (send_log finalEvent now adapters, Normal (map (send_promise finalEvent now) adapters)).
Proof.
  induction adapters as [|a rest IH]; simpl; [reflexivity|].
  rewrite IH. reflexivity.
Qed.

Lemma dispatch_survived d event now t finalEvent :
  await now (runMiddleware (middlewareChain d) event now) = At t (Fulfilled (Some finalEvent)) →
  dispatch d event now =
    {| settled := await t (promise_all t (map (send_promise finalEvent t) (adapters d)));
       log := send_log finalEvent t (adapters d) |}.
Proof.
  intros H. unfold dispatch. rewrite H, js_map_send_task. reflexivity.
Qed.

(** The promise of the chain is fulfilled or stays pending; it is never
    rejected. *)
Lemma runMiddleware_not_rejected chain event now T msg :
  runMiddleware chain event now ≠ At T (Rejected msg).
Proof.
  unfold runMiddleware. destruct chain as [|first rest]; [discriminate|].
  destruct (resolved _); [discriminate|].
  destruct (_ =? 0); discriminate.
Qed.

(** A dispatch calls [send] once for each adapter, or not at all. *)
Lemma dispatch_log d event now :
  log (dispatch d event now) = [] ∨
  ∃ t finalEvent,
    await now (runMiddleware (middlewareChain d) event now) = At t (Fulfilled (Some finalEvent)) ∧
    log (dispatch d event now) = send_log finalEvent t (adapters d).
Proof.
  destruct (await now (runMiddleware (middlewareChain d) event now))
    as [|t [[fe|]|m]] eqn:H.
  - left. unfold dispatch. rewrite H. reflexivity.
  - right. exists t, fe. split; [reflexivity|].
    rewrite (dispatch_survived _ _ _ _ _ H). reflexivity.
  - left. unfold dispatch. rewrite H. reflexivity.
  - left. unfold dispatch. rewrite H. reflexivity.
Qed.

(** How the task of an adapter follows the completion of its [send]. *)
Lemma send_promise_fulfilled finalEvent now a w :
  send_promise finalEvent now a = At w (Fulfilled tt) →
  ∃ c, completion now (Adapter.send a finalEvent) = At c (Fulfilled tt) ∧ w = S c ∧ now ≤ c.
Proof.
  unfold send_promise, completion, await_call.
  destruct (Adapter.send a finalEvent); simpl; intros H; try discriminate;
    injection H as <-; eexists; (split; [reflexivity|lia]).
Qed.

Lemma send_promise_rejected finalEvent now a w msg :
  send_promise finalEvent now a = At w (Rejected msg) →
  ∃ c cause, completion now (Adapter.send a finalEvent) = At c (Rejected cause) ∧
             msg = adapter_error a cause ∧ now ≤ c ∧ c ≤ w ∧ w ≤ S c ∧
             (w = c → c = now).
Proof.
  unfold send_promise, completion, await_call.
  destruct (Adapter.send a finalEvent); simpl; intros H; try discriminate;
    injection H as <- <-; do 2 eexists; (split; [reflexivity|]);
    (split; [reflexivity|lia]).
Qed.

Lemma completion_rejected finalEvent now a c cause :
  completion now (Adapter.send a finalEvent) = At c (Rejected cause) →
  ∃ w, send_promise finalEvent now a = At w (Rejected (adapter_error a cause)) ∧
       now ≤ c ∧ c ≤ w ∧ w ≤ S c.
Proof.
  unfold send_promise, completion, await_call.
  destruct (Adapter.send a finalEvent); simpl; intros H; try discriminate;
    injection H as <- <-; eexists; (split; [reflexivity|lia]).
Qed.

Lemma completion_fulfilled finalEvent now a c :
  completion now (Adapter.send a finalEvent) = At c (Fulfilled tt) →
  send_promise finalEvent now a = At (S c) (Fulfilled tt).
Proof.
  unfold send_promise, completion, await_call.
  destruct (Adapter.send a finalEvent); simpl; intros H; try discriminate;
    injection H as <-; f_equal; lia.
Qed.

End FanOut.

(* ----------------------------------------------------------------- *)
(** ** The events that reach the adapters *)

Section Provenance.

Import Dispatcher.

Variable P : DispatchedEvent → Prop.









End Provenance.

(* ----------------------------------------------------------------- *)
(** ** The callback that the tracker gives to the queue *)

Section Release.

Import Dispatcher.

Lemma send_each_no_flush a processed : ∀ now,
  List.filter is_OnFlush (send_each a processed now).1 = [].
Proof.
  induction processed as [|event rest IH]; intros now; simpl; [reflexivity|].
  destruct (await_call now (Adapter.send a event)) as [|t [[]|m]]; try reflexivity.
  specialize (IH t). destruct (send_each a rest t) as [lg p]. exact IH.
Qed.

Lemma batch_task_no_flush processed now a :
  List.filter is_OnFlush (batch_task processed now a).1 = [].
Proof.
  unfold batch_task. destruct (Adapter.sendBatch a); [reflexivity|].
  pose proof (send_each_no_flush a processed now) as H.
  destruct (send_each a processed now) as [lg p]. exact H.
Qed.

Lemma js_map_no_flush {A B} (f : A → Log * Completion B) (l : list A) :
  (∀ x, List.filter is_OnFlush (f x).1 = []) →
  List.filter is_OnFlush (js_map f l).1 = [].
Proof.
  intros Hf. induction l as [|x rest IH]; simpl; [reflexivity|].
  specialize (Hf x). destruct (f x) as [lg [b|m]]; simpl in *; [|exact Hf].
  destruct (js_map f rest) as [lg' [bs|m]]; simpl in *;
    rewrite List.filter_app, Hf, IH; reflexivity.
Qed.

(** [dispatchBatch] does not call back into the queue. *)
Lemma release_passive d : passive (Tracker.release d).
Proof.
  intros batch now. unfold Tracker.release, dispatchBatch; simpl.
  destruct (process (middlewareChain d) batch [] now) as [|t [processed|m]];
    try reflexivity.
  destruct (length processed =? 0); [reflexivity|].
  pose proof (js_map_no_flush (batch_task processed t) (adapters d)
                (batch_task_no_flush processed t)) as H.
  destruct (js_map (batch_task processed t) (adapters d)) as [lg [ps|m]]; exact H.
Qed.

End Release.

(* ================================================================= *)
(** * The claims *)

(** C1.  The claim: a middleware that never calls its continuation makes
    [dispatch] resolve without any [send], in the first position of the
    chain as in any later one.  The code does so only for the first
    position: with the chain [[pass; decline]] the promise of [dispatch]
    never settles (and no [send] is made), while with [[decline; pass]]
    it is fulfilled two turns later. *)
Theorem decline_in_second_position_hangs :
  Dispatcher.dispatch
    (Dispatcher.mk [adapter_with "a" Returns] [pass; decline]) login_event 0
    = {| settled := Never; log := [] |} ∧
  Dispatcher.dispatch
    (Dispatcher.mk [adapter_with "a" Returns] [decline; pass]) login_event 0
    = {| settled := At 2 (Fulfilled tt); log := [] |}.
Proof.
  split.
  - apply (dispatch_decline_later _ [pass] decline []).
    + discriminate.
    + repeat constructor.
    + intros x. reflexivity.
  - apply dispatch_decline_first. reflexivity.
Qed.

(** In a batch the same chain leaves [dispatchBatch] pending for ever,
    and with it every event of the batch. *)
Example decline_in_second_position_hangs_batch :
  Dispatcher.dispatchBatch
    (Dispatcher.mk [adapter_with "a" Returns] [pass; decline])
    [login_event; logout_event] 0
    = {| settled := Never; log := [] |}.
Proof. reflexivity. Qed.

(** [js_map] does abort when the function mapped throws: the elements
    after the throw are not visited. *)
Example js_map_aborts_on_throw :
  js_map (λ a : Adapter.t,
            ([(0, Send (Adapter.name a) login_event)],
             match Adapter.send a login_event with
             | Throws m => Thrown m
             | _ => Normal tt
             end))
    [adapter_with "a" (Throws "down"); adapter_with "b" Returns]
    = ([(0, Send "a" login_event)], Thrown "down").
Proof. reflexivity. Qed.

(** C5.  When the event survives the middleware chain, [dispatch] calls
    [send] of every adapter exactly once, in the order of the adapters
    and whatever the other adapters throw or reject; and an adapter whose
    own [send] completes successfully has its task fulfilled. *)
Theorem send_failure_is_isolated d event now t finalEvent :
  await now (Dispatcher.runMiddleware (Dispatcher.middlewareChain d) event now)
    = At t (Fulfilled (Some finalEvent)) →
  js_map (Dispatcher.send_task finalEvent t) (Dispatcher.adapters d)
    = (send_log finalEvent t (Dispatcher.adapters d),
       Normal (map (send_promise finalEvent t) (Dispatcher.adapters d))) ∧
  log (Dispatcher.dispatch d event now) = send_log finalEvent t (Dispatcher.adapters d) ∧
  ∀ a, a ∈ Dispatcher.adapters d →
    (t, Send (Adapter.name a) finalEvent) ∈ log (Dispatcher.dispatch d event now) ∧
    ∀ c, completion t (Adapter.send a finalEvent) = At c (Fulfilled tt) →
         send_promise finalEvent t a = At (S c) (Fulfilled tt).
Proof.
  intros H. split; [apply js_map_send_task|].
  rewrite (dispatch_survived _ _ _ _ _ H). simpl. split; [reflexivity|].
  intros a Ha. split.
  - unfold send_log. apply list_elem_of_fmap. exists a. split; [reflexivity|exact Ha].
  - intros c Hc. apply completion_fulfilled, Hc.
Qed.

Lemma send_failure_is_isolated_witness :
  let d := Dispatcher.mk [adapter_with "a" (Throws "down");
                          adapter_with "b" Returns;
                          adapter_with "c" (Rejects 2 "late")] [pass] in
  await 0 (Dispatcher.runMiddleware (Dispatcher.middlewareChain d) login_event 0)
    = At 1 (Fulfilled (Some login_event)) ∧
  log (Dispatcher.dispatch d login_event 0) =
    [(1, Send "a" login_event); (1, Send "b" login_event); (1, Send "c" login_event)].
Proof.
  intros d. split; [reflexivity|].
  exact (proj1 (proj2 (send_failure_is_isolated d login_event 0 1 login_event eq_refl))).
Defined.

(** C6.  The claim: for every event [isAllowed] resolves the category by
    the key, then the area, then the wildcard, then the default
    category.  The code does so only for events whose key and area are
    not names of members of [Object.prototype].  For such a name without
    an entry of its own, [this.mapping[name]] is the inherited member:
    [getCategory] returns it instead of going on to the next pattern or
    to the default category, and [isAllowed] denies the event although no
    entry of the mapping matches and the default category is granted;
    through the tracker, the event of a catalog entry with such a key is
    dropped.  For the other events the order is the one of the claim. *)
Theorem prototype_named_key_is_denied :
  let cm := ConsentManager.new
              (Some (ConsentConfig.mk (Some {[ "analytics"%string := true ]}) None None)) in
  let event k := mkEvent k "shop" "checkout" ∅ 1000%Z ∅ in
  let tracker k :=
    (Tracker.createTracker
       (config_with (catalog_with_key k) [adapter_with "a" Returns] None) 0).1 in
  (* the failing input *)
  (ConsentManager.mapping cm = ∅ ∧
   ConsentManager.defaultCategory cm = analytics ∧
   ConsentManager.state cm !! category_name analytics = Some true ∧
   ConsentManager.getCategory cm (event "constructor") = Member "constructor" ∧
   ConsentManager.isAllowed cm (event "constructor") = false ∧
   ConsentManager.isAllowed cm (event "shop::checkout") = true) ∧
  (* the same through the tracker *)
  (∃ f, Tracker.method (tracker "constructor") "auth" "login" = Some f ∧
        (f None 1000%Z 0).2 = []) ∧
  (∃ f, Tracker.method (tracker "auth::login") "auth" "login" = Some f ∧
        (f None 1000%Z 0).2 =
          [(1, Send "a" (mkEvent "auth::login" "auth" "login" ∅ 1000%Z ∅))]) ∧
  (* every key and area that names an inherited member *)
  (∀ cm event,
     (ConsentManager.mapping cm !! key event = None →
      inherited (key event) = true →
      ConsentManager.getCategory cm event = Member (key event)) ∧
     (ConsentManager.mapping cm !! key event = None →
      inherited (key event) = false →
      ConsentManager.mapping cm !! area event = None →
      inherited (area event) = true →
      ConsentManager.getCategory cm event = Member (area event)) ∧
     (∀ name,
        ConsentManager.getCategory cm event = Member name →
        inherited name = true ∧
        (ConsentManager.isAllowed cm event = true ↔
         ConsentManager.state cm !! member_text name = Some true) ∧
        ((∀ k, is_Some (ConsentManager.state cm !! k) → ∃ c, k = category_name c) →
         ConsentManager.isAllowed cm event = false))) ∧
  (* the other events *)
  (∀ cm event,
     inherited (key event) = false →
     inherited (area event) = false →
     let m := ConsentManager.mapping cm in
     let wildcard := (area event +:+ "::*")%string in
     ConsentManager.getCategory cm event = Val (category_in_order cm event) ∧
     (∀ c, m !! key event = Some c → category_in_order cm event = c) ∧
     (∀ c, m !! key event = None → m !! area event = Some c →
           category_in_order cm event = c) ∧
     (∀ c, m !! key event = None → m !! area event = None → m !! wildcard = Some c →
           category_in_order cm event = c) ∧
     (m !! key event = None → m !! area event = None → m !! wildcard = None →
      category_in_order cm event = ConsentManager.defaultCategory cm) ∧
     (ConsentManager.isAllowed cm event = true ↔
      ConsentManager.state cm !! category_name (category_in_order cm event) = Some true) ∧
     (ConsentManager.state cm !! category_name (category_in_order cm event) = None →
      ConsentManager.isAllowed cm event = false)) ∧
  (* an entry of the mapping itself always wins *)
  (∀ cm event c,
     ConsentManager.mapping cm !! key event = Some c →
     ConsentManager.getCategory cm event = Val c) ∧
  (* the manager of a configuration *)
  (∀ config,
     ConsentManager.mapping (ConsentManager.new config)
       = default ∅ (config ≫= ConsentConfig.mapping) ∧
     ConsentManager.defaultCategory (ConsentManager.new config)
       = default analytics (config ≫= ConsentConfig.defaultCategory) ∧
     ConsentManager.state (ConsentManager.new config)
       = ConsentManager.assign ConsentManager.builtin_state
           (default ∅ (config ≫= ConsentConfig.defaultState))).
Proof.
  intros cm event tracker.
  split; [repeat split; reflexivity|].
  split; [eexists; split; reflexivity|].
  split; [eexists; split; reflexivity|].
  split; [|split; [|split]].
  - intros cm' e. split; [|split].
    + intros Hk Hin. unfold ConsentManager.getCategory.
      rewrite (property_inherited _ _ Hk Hin). reflexivity.
    + intros Hk Hout Ha Hin. unfold ConsentManager.getCategory.
      rewrite (property_none _ _ Hk Hout), (property_inherited _ _ Ha Hin). reflexivity.
    + intros name Hname.
      assert (Hin : inherited name = true).
      { revert Hname. unfold ConsentManager.getCategory, property.
        destruct (ConsentManager.mapping cm' !! key e); [discriminate|].
        destruct (inherited (key e)) eqn:H1; [intros [= <-]; exact H1|].
        destruct (ConsentManager.mapping cm' !! area e); [discriminate|].
        destruct (inherited (area e)) eqn:H2; [intros [= <-]; exact H2|].
        cbv zeta.
        destruct (ConsentManager.mapping cm' !! (area e +:+ "::*")%string);
          [discriminate|].
        rewrite wildcard_not_inherited. discriminate. }
      split; [exact Hin|]. split.
      * rewrite isAllowed_true, Hname. reflexivity.
      * intros Hstate. unfold ConsentManager.isAllowed. rewrite Hname. simpl.
        destruct (ConsentManager.state cm' !! member_text name) as [b|] eqn:Hs;
          [|reflexivity].
        destruct (Hstate (member_text name)) as [c Hc]; [rewrite Hs; eauto|].
        exfalso. exact (member_text_no_category name c Hin Hc).
  - intros cm' e Hk Ha m wildcard. subst m wildcard.
    pose proof (getCategory_in_order cm' e Hk Ha) as Hcat.
    split; [exact Hcat|].
    unfold category_in_order, patterns.
    split; [intros c H; simpl; rewrite H; reflexivity|].
    split; [intros c H1 H2; simpl; rewrite H1, H2; reflexivity|].
    split; [intros c H1 H2 H3; simpl; rewrite H1, H2, H3; reflexivity|].
    split; [intros H1 H2 H3; simpl; rewrite H1, H2, H3; reflexivity|].
    fold (patterns e). fold (category_in_order cm' e).
    split.
    + rewrite isAllowed_true, Hcat. reflexivity.
    + intros H. unfold ConsentManager.isAllowed. rewrite Hcat. simpl. rewrite H.
      reflexivity.
  - intros cm' e c H. unfold ConsentManager.getCategory.
    rewrite (property_own _ _ _ H). reflexivity.
  - intros config. repeat split; reflexivity.
Qed.

(** C7.  An event that consent denies at emit time changes nothing: the
    tracker (and with it the buffer of the queue) is as before and there
    is no effect at all, hence no [send], no release of a batch and no
    call of [onError]. *)
Theorem consent_denied_is_silent tr clock now key area eventName payload :
  ConsentManager.isAllowed (Tracker.consentManager tr)
    (Tracker.build_event tr clock key area eventName payload) = false →
  Tracker.dispatchEvent tr clock now key area eventName payload = (tr, []) ∧
  ∀ eventDef areaEvents params,
    key = TrackingEvent.key eventDef →
    area ∉ Tracker.control_names →
    Tracker.events tr !! area = Some areaEvents →
    areaEvents !! eventName = Some eventDef →
    TrackingEvent.buildPayload eventDef params = Normal payload →
    ∃ f, Tracker.method tr area eventName = Some f ∧ f params clock now = (tr, []).
Proof.
  intros Hdenied.
  assert (Hd : Tracker.dispatchEvent tr clock now key area eventName payload = (tr, [])).
  { unfold Tracker.dispatchEvent. rewrite Hdenied. reflexivity. }
  split; [exact Hd|].
  intros eventDef areaEvents params -> Harea Hevents HeventDef Hpayload.
  unfold Tracker.method. rewrite bool_decide_eq_false_2 by exact Harea.
  rewrite Hevents, (property_own _ _ _ HeventDef). eexists. split; [reflexivity|].
  simpl. rewrite Hpayload. exact Hd.
Qed.

Lemma consent_denied_is_silent_witness :
  let deny := TrackerConfig.mk (catalog_with_key "auth::login")
                [adapter_with "a" Returns] None None None None in
  let tr := (Tracker.createTracker deny 0).1 in
  ConsentManager.isAllowed (Tracker.consentManager tr)
    (Tracker.build_event tr 1000%Z "auth::login" "auth" "login" ∅) = false ∧
  Tracker.dispatchEvent tr 1000%Z 0 "auth::login" "auth" "login" ∅ = (tr, []).
Proof.
  intros deny tr. split; [reflexivity|].
  apply (proj1 (consent_denied_is_silent tr 1000%Z 0 "auth::login" "auth" "login" ∅ eq_refl)).
Defined.

(** C8.  With the interval timer disabled, [maxSize] pushes into a new
    queue invoke the release callback exactly once, with the pushed
    events in push order; the callback is invoked by the last push, at
    the time of that push and before it returns, and the earlier pushes
    only fill the buffer. *)
Theorem push_maxSize_times_releases_once config cb calls :
  let q := EventQueue.new config cb in
  (0 < EventQueue.maxSize q)%Z →
  (EventQueue.flushInterval q <= 0)%Z →
  Z.of_nat (length calls) = EventQueue.maxSize q →
  passive cb →
  EventQueue.timer q = None ∧
  ∃ earlier now event,
    calls = earlier ++ [(now, event)] ∧
    EventQueue.push_all earlier q = (EventQueue.set_queue q (map snd earlier), []) ∧
    EventQueue.push event (EventQueue.set_queue q (map snd earlier)) now =
      (q, (now, OnFlush (map snd calls)) :: released q (map snd calls) now) ∧
    List.filter is_OnFlush (EventQueue.push_all calls q).2 =
      [(now, OnFlush (map snd calls))].
Proof.
  intros q Hpos Hinterval Hlen Hcb. split.
  - subst q. unfold EventQueue.new in *. simpl in *.
    destruct (Z.ltb_spec 0 (default 5000%Z (QueueConfig.flushInterval config))); [lia|reflexivity].
  - apply fill_empty_buffer; [reflexivity|exact Hpos|exact Hlen|exact Hcb].
Qed.

Lemma push_maxSize_times_releases_once_witness :
  let config := QueueConfig.mk (Some true) (Some 2%Z) (Some 0%Z) in
  let q := EventQueue.new config idle_callback in
  let calls := [(0, login_event); (3, logout_event)] in
  ((0 < EventQueue.maxSize q)%Z ∧ (EventQueue.flushInterval q <= 0)%Z ∧
   Z.of_nat (length calls) = EventQueue.maxSize q ∧ passive idle_callback) ∧
  EventQueue.timer q = None.
Proof.
  intros config q calls.
  assert (H1 : (0 < EventQueue.maxSize q)%Z) by (simpl; lia).
  assert (H2 : (EventQueue.flushInterval q <= 0)%Z) by (simpl; lia).
  assert (H3 : Z.of_nat (length calls) = EventQueue.maxSize q) by reflexivity.
  assert (H4 : passive idle_callback) by (intros batch now; reflexivity).
  split; [auto|].
  exact (proj1 (push_maxSize_times_releases_once config idle_callback calls H1 H2 H3 H4)).
Defined.

(** What [destroy] releases: the callback is invoked once, at the time
    of the call, with the whole buffer, and the promise of [destroy]
    follows the one of the callback; with an empty buffer the callback
    is not invoked. *)
Lemma destroy_run q now :
  (EventQueue.queue q = [] →
   (EventQueue.destroy q now).2 = {| settled := At (S now) (Fulfilled tt); log := [] |}) ∧
  (EventQueue.queue q ≠ [] →
   log (EventQueue.destroy q now).2
     = (now, OnFlush (EventQueue.queue q))
         :: (EventQueue.onFlush q (EventQueue.queue q) now).1 ∧
   settled (EventQueue.destroy q now).2
     = match (EventQueue.onFlush q (EventQueue.queue q) now).2 with
       | Normal p => await now (await now p)
       | Thrown m => At (S now) (Rejected m)
       end).
Proof.
  unfold EventQueue.destroy.
  assert (H : ∀ q1, EventQueue.queue q1 = EventQueue.queue q →
                    EventQueue.onFlush q1 = EventQueue.onFlush q →
            (EventQueue.queue q = [] →
             (EventQueue.flush q1 now).2
               = {| settled := At now (Fulfilled tt); log := [] |}) ∧
            (EventQueue.queue q ≠ [] →
             log (EventQueue.flush q1 now).2
               = (now, OnFlush (EventQueue.queue q))
                   :: (EventQueue.onFlush q (EventQueue.queue q) now).1 ∧
             settled (EventQueue.flush q1 now).2
               = match (EventQueue.onFlush q (EventQueue.queue q) now).2 with
                 | Normal p => await now p
                 | Thrown m => At now (Rejected m)
                 end)).
  { intros q1 Hq Hcb. unfold EventQueue.flush. rewrite Hq, Hcb. split.
    - intros ->. reflexivity.
    - intros Hne. destruct (Nat.eqb_spec (length (EventQueue.queue q)) 0) as [H0|_].
      { apply nil_length_inv in H0. contradiction. }
      destruct (EventQueue.onFlush q (EventQueue.queue q) now) as [lg [p|m]];
        split; reflexivity. }
  assert (Hq1 : ∃ q1, (match EventQueue.timer q with
                       | Some _ => EventQueue.set_timer q None
                       | None => q
                       end) = q1 ∧
                      EventQueue.queue q1 = EventQueue.queue q ∧
                      EventQueue.onFlush q1 = EventQueue.onFlush q).
  { destruct (EventQueue.timer q); eexists; repeat split; reflexivity. }
  destruct Hq1 as (q1 & -> & Hq & Hcb). specialize (H q1 Hq Hcb).
  destruct (EventQueue.flush q1 now) as [q2 r]. cbn [fst snd] in *.
  destruct H as [Hempty Hfull]. split.
  - intros H0. rewrite (Hempty H0). simpl. rewrite Nat.max_id. reflexivity.
  - intros Hne. destruct (Hfull Hne) as [Hlog Hset]. cbn [log settled].
    split; [exact Hlog|]. rewrite Hset.
    destruct (EventQueue.onFlush q (EventQueue.queue q) now).2 as [p|m];
      [reflexivity|]. simpl. rewrite Nat.max_id. reflexivity.
Qed.

(** C10.  [destroy] drains the buffer: the release callback is invoked
    once, within the call, with the events buffered, and the promise of
    [destroy] follows the one of the callback.  After it the queue has no
    timer and an empty buffer, and it still works: pushes below
    [maxSize] fill the buffer, and the push that reaches [maxSize]
    invokes the release callback with the events pushed since. *)
Theorem push_after_destroy q t0 :
  let q' := (EventQueue.destroy q t0).1 in
  (EventQueue.queue q ≠ [] →
   log (EventQueue.destroy q t0).2
     = (t0, OnFlush (EventQueue.queue q))
         :: (EventQueue.onFlush q (EventQueue.queue q) t0).1 ∧
   settled (EventQueue.destroy q t0).2
     = match (EventQueue.onFlush q (EventQueue.queue q) t0).2 with
       | Normal p => await t0 (await t0 p)
       | Thrown m => At (S t0) (Rejected m)
       end) ∧
  (EventQueue.queue q = [] →
   (EventQueue.destroy q t0).2 = {| settled := At (S t0) (Fulfilled tt); log := [] |}) ∧
  EventQueue.queue q' = [] ∧
  EventQueue.timer q' = None ∧
  EventQueue.maxSize q' = EventQueue.maxSize q ∧
  EventQueue.onFlush q' = EventQueue.onFlush q ∧
  (∀ calls,
     (Z.of_nat (length calls) < EventQueue.maxSize q)%Z →
     EventQueue.push_all calls q' = (EventQueue.set_queue q' (map snd calls), [])) ∧
  (∀ calls,
     (0 < EventQueue.maxSize q)%Z →
     Z.of_nat (length calls) = EventQueue.maxSize q →
     ∃ earlier now event,
       calls = earlier ++ [(now, event)] ∧
       EventQueue.push_all earlier q' = (EventQueue.set_queue q' (map snd earlier), []) ∧
       EventQueue.push event (EventQueue.set_queue q' (map snd earlier)) now =
         (q', (now, OnFlush (map snd calls)) :: released q' (map snd calls) now)).
Proof.
  intros q'. subst q'.
  split; [apply destroy_run|]. split; [apply destroy_run|].
  rewrite destroy_state.
  split; [reflexivity|]. split; [reflexivity|]. split; [reflexivity|].
  split; [reflexivity|]. split.
  - intros calls Hlen. rewrite push_all_below by (simpl; lia). reflexivity.
  - intros calls Hpos Hlen.
    destruct (exists_last (l := calls)) as (earlier & [now event] & ->).
    { intros ->. simpl in Hlen. lia. }
    rewrite length_app in Hlen; simpl in Hlen.
    exists earlier, now, event. split; [reflexivity|]. split.
    + rewrite push_all_below by (simpl; lia). reflexivity.
    + rewrite push_reach by (simpl; rewrite length_map; lia).
      simpl. rewrite map_app. reflexivity.
Qed.

Lemma push_after_destroy_witness :
  let q := EventQueue.set_queue
             (EventQueue.new (QueueConfig.mk (Some true) (Some 2%Z) None) idle_callback)
             [login_event] in
  let q' := (EventQueue.destroy q 4).1 in
  let calls := [(5, logout_event); (6, login_event)] in
  (EventQueue.queue q ≠ [] ∧ (0 < EventQueue.maxSize q)%Z ∧
   Z.of_nat (length calls) = EventQueue.maxSize q) ∧
  log (EventQueue.destroy q 4).2 = [(4, OnFlush [login_event])] ∧
  settled (EventQueue.destroy q 4).2 = At 6 (Fulfilled tt) ∧
  ∃ earlier now event,
    calls = earlier ++ [(now, event)] ∧
    EventQueue.push_all earlier q' = (EventQueue.set_queue q' (map snd earlier), []) ∧
    EventQueue.push event (EventQueue.set_queue q' (map snd earlier)) now =
      (q', (now, OnFlush [logout_event; login_event])
             :: released q' [logout_event; login_event] now).
Proof.
  intros q q' calls.
  assert (H1 : EventQueue.queue q ≠ []) by discriminate.
  assert (H2 : (0 < EventQueue.maxSize q)%Z) by (simpl; lia).
  assert (H3 : Z.of_nat (length calls) = EventQueue.maxSize q) by reflexivity.
  split; [auto|].
  destruct (push_after_destroy q 4) as (Hdrain & _ & _ & _ & _ & _ & _ & Hreach).
  split; [exact (proj1 (Hdrain H1))|].
  split; [exact (proj2 (Hdrain H1))|].
  exact (Hreach calls H2 H3).
Defined.

(** C2, as the specification states it, fails on the code: with an
    adapter that rejects after 1 turn and one that rejects after 50,
    [dispatch] is rejected at time 5, before the second [send] has
    completed, and its error does not mention the second failure. *)
Lemma dispatch_rejects_on_first_failure :
  let d := Dispatcher.mk [adapter_with "a" (Rejects 1 "down");
                          adapter_with "b" (Rejects 50 "timeout")] [] in
  settled (Dispatcher.dispatch d login_event 0)
    = At 5 (Rejected (Dispatcher.adapter_error (adapter_with "a" (Rejects 1 "down")) "down")) ∧
  ¬ waits_for_every_send d login_event 0 ∧
  ¬ reports_every_failure d login_event 0.
Proof.
  intros d. split; [reflexivity|]. split.
  - intros H.
    destruct (H 1 login_event 5 _ eq_refl eq_refl (adapter_with "b" (Rejects 50 "timeout")))
      as (c & o' & Hc & Hle).
    + right. left.
    + injection Hc as <- _. lia.
  - intros H.
    destruct (H 1 login_event (adapter_with "b" (Rejects 50 "timeout")) 51 "timeout" eq_refl)
      as (T & msg & Hs & Hm).
    + right. left.
    + reflexivity.
    + injection Hs as _ <-. vm_compute in Hm. discriminate.
Qed.

(** How [dispatch] settles when it settles: fulfilled only after every
    [send] has completed successfully; rejected with the wrapped error
    of an adapter whose [send] failed first, within three turns of that
    failure. *)
Lemma dispatch_settled d event now t finalEvent T o :
  await now (Dispatcher.runMiddleware (Dispatcher.middlewareChain d) event now)
    = At t (Fulfilled (Some finalEvent)) →
  settled (Dispatcher.dispatch d event now) = At T o →
  match o with
  | Fulfilled _ =>
      ∀ a, a ∈ Dispatcher.adapters d →
        ∃ c, completion t (Adapter.send a finalEvent) = At c (Fulfilled tt) ∧ c < T
  | Rejected msg =>
      ∃ a c cause,
        a ∈ Dispatcher.adapters d ∧
        completion t (Adapter.send a finalEvent) = At c (Rejected cause) ∧
        msg = Dispatcher.adapter_error a cause ∧
        c < T ∧ T ≤ c + 3 ∧
        ∀ a' c' cause',
          a' ∈ Dispatcher.adapters d →
          completion t (Adapter.send a' finalEvent) = At c' (Rejected cause') →
          c ≤ c'
  end.
Proof.
  intros Hs Hsettled. rewrite (dispatch_survived _ _ _ _ _ Hs) in Hsettled.
  simpl in Hsettled.
  destruct (promise_all t (map (send_promise finalEvent t) (Dispatcher.adapters d)))
    as [|T' o'] eqn:Hall; simpl in Hsettled; [discriminate|].
  injection Hsettled as <- <-.
  destruct o' as [[]|msg].
  - intros a Ha.
    destruct (promise_all_fulfilled _ _ _ Hall (send_promise finalEvent t a))
      as (w & Hw & Hlt).
    { apply list_elem_of_fmap. exists a. split; [reflexivity|exact Ha]. }
    apply send_promise_fulfilled in Hw as (c & Hc & -> & Hle).
    exists c. split; [exact Hc|lia].
  - apply promise_all_rejected in Hall as (w & Hin & -> & Hmin).
    apply list_elem_of_fmap in Hin as (a & Hw & Ha). symmetry in Hw.
    apply send_promise_rejected in Hw as (c & cause & Hc & -> & H1 & H2 & H3 & H4).
    exists a, c, cause. split; [exact Ha|]. split; [exact Hc|].
    split; [reflexivity|]. split; [lia|]. split; [lia|].
    intros a' c' cause' Ha' Hc'.
    apply completion_rejected in Hc' as (w' & Hw' & H1' & H2' & H3').
    assert (w ≤ w').
    { eapply Hmin. apply list_elem_of_fmap. exists a'. split; [|exact Ha'].
      symmetry. exact Hw'. }
    destruct (Nat.eq_dec w c) as [Heq|Hne]; [specialize (H4 Heq)|]; lia.
Qed.

(** The task of an adapter stays pending exactly when its [send] does. *)
Lemma send_promise_never finalEvent now a :
  send_promise finalEvent now a = Never ↔
  completion now (Adapter.send a finalEvent) = Never.
Proof.
  unfold send_promise, completion, Dispatcher.await_call.
  destruct (Adapter.send a finalEvent); simpl; split; congruence.
Qed.

(** A rejected element makes [Promise.all] reject, whatever the other
    elements do. *)
Lemma promise_all_rejects now (ps : list (Settle unit)) w m :
  At w (Rejected m) ∈ ps → ∃ T msg, promise_all now ps = At T (Rejected msg).
Proof.
  intros Hin. unfold promise_all.
  destruct (first_rejection ps) as [[w0 m0]|] eqn:Hrej; [eauto|].
  exfalso. eapply first_rejection_none; eauto.
Qed.

(** Without a rejected element [Promise.all] stays pending as soon as an
    element does, and is fulfilled otherwise. *)
Lemma promise_all_no_rejection now (ps : list (Settle unit)) :
  (∀ w m, At w (Rejected m) ∉ ps) →
  if existsb is_never ps then promise_all now ps = Never
  else ∃ T, promise_all now ps = At T (Fulfilled tt).
Proof.
  intros Hno. unfold promise_all.
  destruct (first_rejection ps) as [[w0 m0]|] eqn:Hrej.
  { apply first_rejection_some in Hrej as [Hin _]. exfalso. eapply Hno. exact Hin. }
  destruct (existsb is_never ps); [reflexivity|].
  destruct ps; eauto.
Qed.

(** C2, amended.  When the event survives the middleware chain and the
    [send] of some adapter fails, [dispatch] is rejected, whatever the
    other calls do and also when some of them stay pending for ever: its
    error is the error of one adapter, wrapped with the name of that
    adapter, an adapter whose [send] failed first, and the rejection
    follows that failure within three turns.  When every [send]
    completes successfully, [dispatch] is fulfilled, after all of them.
    When no [send] fails and one stays pending, [dispatch] stays pending.
    And whenever [dispatch] settles, it is fulfilled only after every
    [send] has completed successfully, and rejected only with the error
    of an adapter whose [send] failed first. *)
Theorem dispatch_settles_on_first_failure d event now t finalEvent :
  await now (Dispatcher.runMiddleware (Dispatcher.middlewareChain d) event now)
    = At t (Fulfilled (Some finalEvent)) →
  (∀ a c cause,
     a ∈ Dispatcher.adapters d →
     completion t (Adapter.send a finalEvent) = At c (Rejected cause) →
     ∃ T a0 c0 cause0,
       settled (Dispatcher.dispatch d event now)
         = At T (Rejected (Dispatcher.adapter_error a0 cause0)) ∧
       a0 ∈ Dispatcher.adapters d ∧
       completion t (Adapter.send a0 finalEvent) = At c0 (Rejected cause0) ∧
       c0 ≤ c ∧ c0 < T ∧ T ≤ c0 + 3 ∧
       ∀ a' c' cause',
         a' ∈ Dispatcher.adapters d →
         completion t (Adapter.send a' finalEvent) = At c' (Rejected cause') →
         c0 ≤ c') ∧
  ((∀ a, a ∈ Dispatcher.adapters d →
      ∃ c, completion t (Adapter.send a finalEvent) = At c (Fulfilled tt)) →
   ∃ T, settled (Dispatcher.dispatch d event now) = At T (Fulfilled tt) ∧
        ∀ a, a ∈ Dispatcher.adapters d →
          ∃ c, completion t (Adapter.send a finalEvent) = At c (Fulfilled tt) ∧ c < T) ∧
  ((∀ a c cause, a ∈ Dispatcher.adapters d →
      completion t (Adapter.send a finalEvent) ≠ At c (Rejected cause)) →
   (∃ a, a ∈ Dispatcher.adapters d ∧
         completion t (Adapter.send a finalEvent) = Never) →
   settled (Dispatcher.dispatch d event now) = Never) ∧
  (∀ T o,
     settled (Dispatcher.dispatch d event now) = At T o →
     match o with
     | Fulfilled _ =>
         ∀ a, a ∈ Dispatcher.adapters d →
           ∃ c, completion t (Adapter.send a finalEvent) = At c (Fulfilled tt) ∧ c < T
     | Rejected msg =>
         ∃ a c cause,
           a ∈ Dispatcher.adapters d ∧
           completion t (Adapter.send a finalEvent) = At c (Rejected cause) ∧
           msg = Dispatcher.adapter_error a cause ∧
           c < T ∧ T ≤ c + 3 ∧
           ∀ a' c' cause',
             a' ∈ Dispatcher.adapters d →
             completion t (Adapter.send a' finalEvent) = At c' (Rejected cause') →
             c ≤ c'
     end).
Proof.
  intros Hs.
  pose proof (dispatch_survived _ _ _ _ _ Hs) as Hd.
  assert (Hno : (∀ a c cause, a ∈ Dispatcher.adapters d →
                   completion t (Adapter.send a finalEvent) ≠ At c (Rejected cause)) →
                ∀ w m, At w (Rejected m)
                         ∉ map (send_promise finalEvent t) (Dispatcher.adapters d)).
  { intros Hok w m Hin. apply list_elem_of_fmap in Hin as (a & Hw & Ha).
    symmetry in Hw. apply send_promise_rejected in Hw as (c & cause & Hc & _).
    exact (Hok a c cause Ha Hc). }
  split; [|split; [|split]].
  - intros a c cause Ha Hc.
    destruct (completion_rejected _ _ _ _ _ Hc) as (w & Hw & _).
    destruct (promise_all_rejects t (map (send_promise finalEvent t) (Dispatcher.adapters d))
                w (Dispatcher.adapter_error a cause)) as (T' & msg & Hall).
    { apply list_elem_of_fmap. exists a. split; [symmetry; exact Hw|exact Ha]. }
    assert (Hsettled : settled (Dispatcher.dispatch d event now)
                       = At (S (Nat.max T' t)) (Rejected msg)).
    { rewrite Hd. simpl. rewrite Hall. reflexivity. }
    destruct (dispatch_settled _ _ _ _ _ _ _ Hs Hsettled)
      as (a0 & c0 & cause0 & Ha0 & Hc0 & -> & Hlt & Hle & Hmin).
    exists (S (Nat.max T' t)), a0, c0, cause0.
    split; [exact Hsettled|]. split; [exact Ha0|]. split; [exact Hc0|].
    split; [exact (Hmin a c cause Ha Hc)|]. auto.
  - intros Hall.
    assert (Hok : ∀ a c cause, a ∈ Dispatcher.adapters d →
              completion t (Adapter.send a finalEvent) ≠ At c (Rejected cause)).
    { intros a c cause Ha Hc. destruct (Hall a Ha) as [c' Hc']. congruence. }
    pose proof (promise_all_no_rejection t _ (Hno Hok)) as Hp.
    destruct (existsb is_never (map (send_promise finalEvent t) (Dispatcher.adapters d)))
      eqn:Hnever.
    + exfalso. apply existsb_exists in Hnever as (p & Hin & Hp').
      apply list_elem_of_In, list_elem_of_fmap in Hin as (a & -> & Ha).
      destruct (send_promise finalEvent t a) eqn:Hsp; [|discriminate].
      apply send_promise_never in Hsp. destruct (Hall a Ha) as [c Hc]. congruence.
    + destruct Hp as [T' Hp].
      assert (Hsettled : settled (Dispatcher.dispatch d event now)
                         = At (S (Nat.max T' t)) (Fulfilled tt)).
      { rewrite Hd. simpl. rewrite Hp. reflexivity. }
      exists (S (Nat.max T' t)). split; [exact Hsettled|].
      exact (dispatch_settled _ _ _ _ _ _ _ Hs Hsettled).
  - intros Hok (a & Ha & Hnever).
    pose proof (promise_all_no_rejection t _ (Hno Hok)) as Hp.
    assert (Hex : existsb is_never
                    (map (send_promise finalEvent t) (Dispatcher.adapters d)) = true).
    { apply existsb_exists. exists Never. split; [|reflexivity].
      apply list_elem_of_In, list_elem_of_fmap. exists a. split; [|exact Ha].
      symmetry. apply send_promise_never. exact Hnever. }
    rewrite Hex in Hp. rewrite Hd. simpl. rewrite Hp. reflexivity.
  - intros T o. apply dispatch_settled. exact Hs.
Qed.

Lemma dispatch_settles_on_first_failure_witness :
  let a := adapter_with "a" (Rejects 1 "down") in
  let b := adapter_with "b" Pends in
  let c := adapter_with "c" (Rejects 50 "timeout") in
  let d := Dispatcher.mk [a; b; c] [] in
  (await 0 (Dispatcher.runMiddleware (Dispatcher.middlewareChain d) login_event 0)
     = At 1 (Fulfilled (Some login_event)) ∧
   c ∈ Dispatcher.adapters d ∧
   completion 1 (Adapter.send c login_event) = At 51 (Rejected "timeout") ∧
   completion 1 (Adapter.send b login_event) = Never) ∧
  ∃ T a0 c0 cause0,
    settled (Dispatcher.dispatch d login_event 0)
      = At T (Rejected (Dispatcher.adapter_error a0 cause0)) ∧
    a0 ∈ Dispatcher.adapters d ∧
    completion 1 (Adapter.send a0 login_event) = At c0 (Rejected cause0) ∧
    c0 ≤ 51 ∧ c0 < T ∧ T ≤ c0 + 3 ∧
    ∀ a' c' cause',
      a' ∈ Dispatcher.adapters d →
      completion 1 (Adapter.send a' login_event) = At c' (Rejected cause') →
      c0 ≤ c'.
Proof.
  intros a b c d.
  assert (Hc : c ∈ Dispatcher.adapters d) by (right; right; left).
  split; [repeat split; [exact Hc]|].
  exact (proj1 (dispatch_settles_on_first_failure d login_event 0 1 login_event eq_refl)
           c 51 "timeout" Hc eq_refl).
Defined.

(** With a pending [send] beside the failing ones, [dispatch] is
    rejected at time 5 all the same. *)
Example dispatch_rejects_beside_a_pending_send :
  settled (Dispatcher.dispatch
             (Dispatcher.mk [adapter_with "a" (Rejects 1 "down");
                             adapter_with "b" Pends;
                             adapter_with "c" (Rejects 50 "timeout")] [])
             login_event 0)
    = At 5 (Rejected (Dispatcher.adapter_error (adapter_with "a" (Rejects 1 "down")) "down")).
Proof. reflexivity. Qed.

(** C4, as the specification states it, fails on the code: a middleware
    that calls [next] twice does not make the dispatch fail; the second
    call is ignored and the event is delivered. *)
Lemma repeated_next_delivers :
  let d := Dispatcher.mk [adapter_with "a" Returns] [twice] in
  Dispatcher.dispatch d login_event 0
    = {| settled := At 4 (Fulfilled tt); log := [(1, Send "a" login_event)] |} ∧
  ¬ misuse_fails_delivery d login_event 0.
Proof.
  intros d. split; [reflexivity|].
  intros H. destruct (H twice [] eq_refl) as (T & msg & Hs).
  - simpl. lia.
  - discriminate Hs.
Qed.

(** A second call of [next] made before the chain has resolved advances
    [index] once more: here the middleware that declines is stepped over
    and the event is delivered. *)
Example repeated_next_steps_over_a_middleware :
  Dispatcher.dispatch
    (Dispatcher.mk [adapter_with "a" Returns] [twice; decline; pass]) login_event 0
    = {| settled := At 4 (Fulfilled tt); log := [(1, Send "a" login_event)] |}.
Proof. reflexivity. Qed.

(** C4, amended.  Calling [next] more than once raises no error: the
    promise of the chain is never rejected, a call of [next] made after
    the chain has resolved does nothing, every dispatch calls [send] at
    most once for each adapter, and a rejection of [dispatch] is always
    the error of an adapter. *)
Theorem repeated_next_is_no_error d event now :
  (∀ T msg,
     Dispatcher.runMiddleware (Dispatcher.middlewareChain d) event now
       ≠ At T (Rejected msg)) ∧
  (∀ fuel st e,
     Dispatcher.resolved st = true →
     Dispatcher.next fuel (Dispatcher.middlewareChain d) st e = st) ∧
  (log (Dispatcher.dispatch d event now) = [] ∨
   ∃ t finalEvent,
     log (Dispatcher.dispatch d event now) = send_log finalEvent t (Dispatcher.adapters d)) ∧
  (∀ T msg,
     settled (Dispatcher.dispatch d event now) = At T (Rejected msg) →
     ∃ a cause, a ∈ Dispatcher.adapters d ∧ msg = Dispatcher.adapter_error a cause).
Proof.
  split; [intros T msg; apply runMiddleware_not_rejected|].
  split; [intros fuel st e; apply next_resolved|].
  split.
  - destruct (dispatch_log d event now) as [H|(t & fe & _ & H)]; [left; exact H|].
    right. exists t, fe. exact H.
  - intros T msg.
    destruct (await now (Dispatcher.runMiddleware (Dispatcher.middlewareChain d) event now))
      as [|t [[fe|]|m]] eqn:Hs.
    + unfold Dispatcher.dispatch. rewrite Hs. discriminate.
    + rewrite (dispatch_survived _ _ _ _ _ Hs). simpl.
      destruct (promise_all t (map (send_promise fe t) (Dispatcher.adapters d)))
        as [|T' o'] eqn:Hall; simpl; [discriminate|].
      intros [= <- ->].
      apply promise_all_rejected in Hall as (w & Hin & _ & _).
      apply list_elem_of_fmap in Hin as (a & Hw & Ha). symmetry in Hw.
      apply send_promise_rejected in Hw as (c & cause & _ & -> & _).
      exists a, cause. split; [exact Ha|reflexivity].
    + unfold Dispatcher.dispatch. rewrite Hs. discriminate.
    + exfalso. unfold await in Hs.
      destruct (Dispatcher.runMiddleware (Dispatcher.middlewareChain d) event now)
        as [|t0 o0] eqn:Hrun; [discriminate|].
      injection Hs as _ ->. eapply runMiddleware_not_rejected. exact Hrun.
Qed.

Lemma repeated_next_is_no_error_witness :
  let d := Dispatcher.mk [adapter_with "a" Returns] [twice; pass] in
  let st := {| Dispatcher.resolved := true; Dispatcher.index := 2;
               Dispatcher.value := Some login_event |} in
  Dispatcher.resolved st = true ∧
  Dispatcher.next 2 (Dispatcher.middlewareChain d) st logout_event = st.
Proof.
  intros d st. split; [reflexivity|].
  exact (proj1 (proj2 (repeated_next_is_no_error d login_event 0)) 2 st logout_event eq_refl).
Defined.

(** The direct path: a rejection of [dispatch] reaches [onError], with
    the event, one turn later; nothing is left unhandled. *)
Lemma direct_path_reports tr clock now key area eventName payload T msg :
  let event := Tracker.build_event tr clock key area eventName payload in
  Tracker.queue tr = None →
  ConsentManager.isAllowed (Tracker.consentManager tr) event = true →
  settled (Dispatcher.dispatch (Tracker.dispatcher tr) event now) = At T (Rejected msg) →
  (Tracker.dispatchEvent tr clock now key area eventName payload).2 =
    log (Dispatcher.dispatch (Tracker.dispatcher tr) event now)
    ++ [(S T, OnError msg (Some event))] ∧
  List.filter is_UnhandledRejection
    (Tracker.dispatchEvent tr clock now key area eventName payload).2 = [].
Proof.
  intros event Hq Hallowed Hs. unfold Tracker.dispatchEvent.
  fold event. rewrite Hallowed, Hq. simpl. unfold Tracker.catch_onError. rewrite Hs.
  split; [reflexivity|].
  rewrite List.filter_app. simpl. rewrite app_nil_r.
  destruct (dispatch_log (Tracker.dispatcher tr) event now) as [->|(t & fe & _ & ->)];
    [reflexivity|].
  unfold send_log. induction (Dispatcher.adapters (Tracker.dispatcher tr)); [reflexivity|].
  simpl. assumption.
Qed.

(** C3.  The claim: a failure of a destination reaches [onError] on the
    batched path as it does on the direct path.  On the code it does
    not.  With one adapter whose [send] throws and the queue enabled, the
    rejection of [dispatchBatch] is an unhandled rejection when the flush
    comes from a push that reaches [maxSize] or from the interval timer,
    and it rejects the promise of [flush()]; [onError] is not called.
    The same adapter on the direct path has its error passed to
    [onError]. *)
Theorem batched_failure_bypasses_onError :
  let failing := adapter_with "ga4" (Throws "network down") in
  let message := Dispatcher.adapter_batch_error failing "network down" in
  let tracker queue :=
    (Tracker.createTracker
       (config_with (catalog_with_key "auth::login") [failing] queue) 0).1 in
  let event := mkEvent "auth::login" "auth" "login" ∅ 1000%Z ∅ in
  (* a push that reaches maxSize = 1 *)
  (∃ f, Tracker.method (tracker (Some (QueueConfig.mk (Some true) (Some 1%Z) (Some 0%Z))))
          "auth" "login" = Some f ∧
        (f None 1000%Z 0).2 =
          [(0, OnFlush [event]); (1, Send "ga4" event); (4, UnhandledRejection message)]) ∧
  (* the interval timer, and flush() *)
  (∃ f q, Tracker.method (tracker (Some (QueueConfig.mk (Some true) None None)))
            "auth" "login" = Some f ∧
          (f None 1000%Z 0).2 = [] ∧
          Tracker.queue (f None 1000%Z 0).1 = Some q ∧
          (EventQueue.tick q 5).2 =
            [(5, OnFlush [event]); (6, Send "ga4" event); (9, UnhandledRejection message)] ∧
          (Tracker.flush (f None 1000%Z 0).1 7).2 =
            {| settled := At 12 (Rejected message);
               log := [(7, OnFlush [event]); (8, Send "ga4" event)] |}) ∧
  (* the direct path *)
  (∃ f, Tracker.method (tracker None) "auth" "login" = Some f ∧
        (f None 1000%Z 0).2 =
          [(1, Send "ga4" event);
           (4, OnError (Dispatcher.adapter_error failing "network down") (Some event))]).
Proof.
  intros failing message tracker event. split; [|split].
  - eexists. split; reflexivity.
  - eexists. eexists. split; [reflexivity|]. split; [reflexivity|].
    split; [reflexivity|]. split; reflexivity.
  - eexists. split; reflexivity.
Qed.




(* ================================================================= *)
(** * Further properties *)

(* ----------------------------------------------------------------- *)
(** ** Batching queue *)

Section QueueMore.

Import EventQueue.

Lemma batches_app lg1 lg2 : batches (lg1 ++ lg2) = batches lg1 ++ batches lg2.
Proof. unfold batches. apply omap_app. Qed.

Lemma batches_no_flush lg : List.filter is_OnFlush lg = [] → batches lg = [].
Proof.
  induction lg as [|[t eff] rest IH]; [reflexivity|].
  unfold batches in *. destruct eff; cbn; intros H; try discriminate; apply IH, H.
Qed.

Lemma batches_released q batch now :
  passive (onFlush q) → batches (released q batch now) = [].
Proof. intros H. apply batches_no_flush, released_passive, H. Qed.

(** What one push does to the buffer and to the batches released. *)
Lemma push_conserves event q now :
  passive (onFlush q) →
  concat (batches (push event q now).2) ++ queue (push event q now).1
    = queue q ++ [event] ∧
  onFlush (push event q now).1 = onFlush q ∧
  timer (push event q now).1 = timer q ∧
  maxSize (push event q now).1 = maxSize q.
Proof.
  intros Hp.
  destruct (Z.leb_spec (maxSize q) (Z.of_nat (S (length (queue q))))).
  - rewrite push_reach by assumption. cbn [fst snd].
    change (batches ((now, OnFlush (queue q ++ [event]))
                       :: released q (queue q ++ [event]) now))
      with ((queue q ++ [event]) :: batches (released q (queue q ++ [event]) now)).
    rewrite batches_released by assumption. simpl. rewrite !app_nil_r. auto.
  - rewrite push_below by assumption. simpl. auto.
Qed.

(** X1.  No event is lost or released twice: after any sequence of
    pushes the batches handed to the callback, in the order of their
    release, followed by the buffer are the events that were in the
    buffer followed by the events pushed, in push order. *)
Theorem push_all_conserves calls : ∀ q,
  passive (onFlush q) →
  concat (batches (push_all calls q).2) ++ queue (push_all calls q).1
    = queue q ++ map snd calls.
Proof.
  induction calls as [|[now event] rest IH]; intros q Hp; simpl.
  - rewrite app_nil_r. reflexivity.
  - destruct (push_conserves event q now Hp) as (Hc & Hcb & _ & _).
    destruct (push event q now) as [q1 lg1]; simpl in *.
    assert (Hp1 : passive (onFlush q1)) by (rewrite Hcb; exact Hp).
    specialize (IH q1 Hp1).
    destruct (push_all rest q1) as [q2 lg2]; simpl in *.
    rewrite batches_app, concat_app, <- app_assoc, IH, app_assoc, Hc, <- app_assoc.
    reflexivity.
Qed.

Lemma push_all_conserves_witness :
  let q := new (QueueConfig.mk (Some true) (Some 2%Z) (Some 0%Z)) idle_callback in
  let calls := [(0, login_event); (1, logout_event); (2, login_event)] in
  passive (onFlush q) ∧
  concat (batches (push_all calls q).2) ++ queue (push_all calls q).1
    = [login_event; logout_event; login_event].
Proof.
  intros q calls.
  assert (H : passive (onFlush q)) by (intros batch now; reflexivity).
  split; [exact H|]. exact (push_all_conserves calls q H).
Defined.

(** X2.  When a push returns, the buffer holds fewer than [maxSize]
    events, and none when [maxSize] is 1 or less: the buffer never grows
    beyond the configured size, whatever the callback does. *)
Theorem push_keeps_buffer_below_maxSize event q now :
  (Z.of_nat (length (queue (push event q now).1)) < Z.max 1 (maxSize q))%Z ∧
  ∀ calls,
    (Z.of_nat (length (queue (push_all calls (push event q now).1).1))
       < Z.max 1 (maxSize q))%Z.
Proof.
  assert (Hone : ∀ e q0 t,
            (Z.of_nat (length (queue (push e q0 t).1)) < Z.max 1 (maxSize q0))%Z ∧
            maxSize (push e q0 t).1 = maxSize q0).
  { intros e q0 t.
    destruct (Z.leb_spec (maxSize q0) (Z.of_nat (S (length (queue q0))))).
    - rewrite push_reach by assumption. simpl. split; [lia|reflexivity].
    - rewrite push_below by assumption. simpl. rewrite length_app. simpl.
      split; [lia|reflexivity]. }
  split; [apply Hone|].
  intros calls. destruct (Hone event q now) as [Hlt Hmax].
  revert Hlt Hmax. generalize (push event q now).1. generalize (maxSize q).
  intros M q1 Hlt Hmax. revert q1 Hlt Hmax.
  induction calls as [|[t e] rest IH]; intros q1 Hlt Hmax; simpl; [exact Hlt|].
  destruct (Hone e q1 t) as [Hlt1 Hmax1]. rewrite Hmax in Hlt1, Hmax1.
  destruct (push e q1 t) as [q2 lg]; simpl in *.
  specialize (IH q2 Hlt1 Hmax1).
  destruct (push_all rest q2) as [q3 lg']. exact IH.
Qed.

Lemma push_all_timer calls : ∀ q, timer (push_all calls q).1 = timer q.
Proof.
  induction calls as [|[now event] rest IH]; intros q; simpl; [reflexivity|].
  assert (H : timer (push event q now).1 = timer q).
  { destruct (Z.leb_spec (maxSize q) (Z.of_nat (S (length (queue q))))).
    - rewrite push_reach by assumption. reflexivity.
    - rewrite push_below by assumption. reflexivity. }
  destruct (push event q now) as [q1 lg1]; simpl in *.
  specialize (IH q1). destruct (push_all rest q1) as [q2 lg2]; simpl in *.
  congruence.
Qed.

(** X3.  After [destroy] the interval timer releases nothing any more,
    whatever is pushed afterwards: its callback leaves the queue as it is
    and has no effect. *)
Theorem no_timer_release_after_destroy q t0 calls t1 :
  let q1 := (destroy q t0).1 in
  let q2 := (push_all calls q1).1 in
  timer q2 = None ∧ tick q2 t1 = (q2, []).
Proof.
  intros q1 q2.
  assert (H : timer q2 = None).
  { subst q2 q1. rewrite push_all_timer, destroy_state. reflexivity. }
  split; [exact H|]. unfold tick. rewrite H. reflexivity.
Qed.

(** X4.  [flush] takes the whole buffer at once: the callback gets the
    buffered events in one batch and the buffer is empty afterwards;
    with an empty buffer the callback is not called and the queue is
    unchanged, so that a second [flush] right after the first releases
    nothing. *)
Theorem flush_takes_the_whole_buffer q now :
  passive (onFlush q) →
  queue (flush q now).1 = [] ∧
  batches (log (flush q now).2) = (if length (queue q) =? 0 then [] else [queue q]) ∧
  (queue q = [] →
   flush q now = (q, {| settled := At now (Fulfilled tt); log := [] |})) ∧
  ∀ later,
    flush (flush q now).1 later =
      ((flush q now).1, {| settled := At later (Fulfilled tt); log := [] |}).
Proof.
  intros Hp.
  assert (Hempty : ∀ q0 t, queue q0 = [] →
            flush q0 t = (q0, {| settled := At t (Fulfilled tt); log := [] |})).
  { intros q0 t H0. unfold flush. rewrite H0. reflexivity. }
  assert (Hq : queue (flush q now).1 = []).
  { unfold flush. destruct (Nat.eqb_spec (length (queue q)) 0) as [H0|H0].
    - apply nil_length_inv in H0. exact H0.
    - destruct (onFlush q (queue q) now) as [lg [p|m]]; reflexivity. }
  split; [exact Hq|]. split; [|split; [apply Hempty|]].
  - unfold flush. destruct (length (queue q) =? 0); [reflexivity|].
    specialize (Hp (queue q) now).
    destruct (onFlush q (queue q) now) as [lg [p|m]]; simpl in *;
      change (batches ((now, OnFlush (queue q)) :: lg)) with (queue q :: batches lg);
      rewrite (batches_no_flush lg Hp); reflexivity.
  - intros later. apply Hempty, Hq.
Qed.

Lemma flush_takes_the_whole_buffer_witness :
  let q := set_queue (new (QueueConfig.mk (Some true) None None) idle_callback)
             [login_event; logout_event] in
  passive (onFlush q) ∧
  batches (log (flush q 3).2) = [[login_event; logout_event]].
Proof.
  intros q.
  assert (H : passive (onFlush q)) by (intros batch now; reflexivity).
  split; [exact H|].
  exact (proj1 (proj2 (flush_takes_the_whole_buffer q 3 H))).
Defined.

End QueueMore.

(* ----------------------------------------------------------------- *)
(** ** Consent *)

Section ConsentMore.

Import ConsentManager.

(** X5.  [update] changes the answer of [isAllowed] only through the
    categories it names: the category of an event is resolved as before,
    a category named in the update gets the new value, and every other
    category keeps the answer it had.  The state gets every property of
    the update but [__proto__], which [Object.assign] hands to the
    setter of the prototype when the state has no such property of its
    own. *)
Theorem update_changes_named_categories cm partial event :
  getCategory (update cm partial) event = getCategory cm event ∧
  isAllowed (update cm partial) event =
    match partial !! state_key (getCategory cm event) with
    | Some granted => granted
    | None => isAllowed cm event
    end ∧
  (∀ c, c ≠ "__proto__"%string ∨ is_Some (getState cm !! c) →
        getState (update cm partial) !! c =
          match partial !! c with
          | Some granted => Some granted
          | None => getState cm !! c
          end) ∧
  (getState cm !! "__proto__"%string = None →
   getState (update cm partial) !! "__proto__"%string = None).
Proof.
  assert (Hstate : ∀ c, c ≠ "__proto__"%string ∨ is_Some (state cm !! c) →
            state (update cm partial) !! c =
            match partial !! c with
            | Some granted => Some granted
            | None => state cm !! c
            end).
  { intros c Hc. unfold update; cbn [state]. rewrite object_assign_lookup.
    destruct (partial !! c) as [b|]; [|reflexivity].
    destruct Hc as [Hne|Hown].
    - apply String.eqb_neq in Hne. rewrite Hne. reflexivity.
    - rewrite (bool_decide_eq_true_2 _ Hown), andb_false_r. reflexivity. }
  split; [reflexivity|]. split; [|split; [exact Hstate|]].
  - unfold isAllowed.
    change (getCategory (update cm partial) event) with (getCategory cm event).
    cbv zeta. rewrite Hstate
      by (left; apply String.eqb_neq, state_key_not_proto).
    destruct (partial !! state_key (getCategory cm event)) as [[|]|]; reflexivity.
  - intros Hnone. unfold getState, update; cbn [state].
    rewrite object_assign_lookup. unfold getState in Hnone. rewrite Hnone.
    destruct (partial !! "__proto__"%string); [|reflexivity].
    rewrite bool_decide_eq_false_2 by (intros [x Hx]; discriminate). reflexivity.
Qed.

(** A property [__proto__] of the update, as [JSON.parse] makes one, does
    not reach the state. *)
Example update_skips_proto :
  let partial : gmap string bool :=
    {[ "__proto__"%string := true; "analytics"%string := true ]} in
  getState (update (new None) partial) !! "__proto__"%string = None ∧
  getState (update (new None) partial) !! "analytics"%string = Some true.
Proof.
  intros partial. unfold getState, update; cbn [state].
  rewrite !object_assign_lookup. split; reflexivity.
Qed.

Lemma new_without_config_denies event : isAllowed (new None) event = false.
Proof.
  assert (Hmember : ∀ name, inherited name = true →
            state (new None) !! member_text name = None).
  { intros name H. apply inherited_elem in H. unfold prototype_names in H.
    repeat (apply elem_of_cons in H as [->|H]; [reflexivity|]).
    inversion H. }
  unfold isAllowed, getCategory, property. cbv zeta.
  change (mapping (new None)) with (∅ : gmap string ConsentCategory).
  rewrite !lookup_empty, wildcard_not_inherited.
  destruct (inherited (key event)) eqn:Hk;
    [cbn [state_key]; rewrite (Hmember _ Hk); reflexivity|].
  destruct (inherited (area event)) eqn:Ha;
    [cbn [state_key]; rewrite (Hmember _ Ha); reflexivity|].
  reflexivity.
Qed.

End ConsentMore.

(** X6.  A tracker created without a consent configuration delivers
    nothing: the consent state starts with [analytics] denied and every
    event resolves to the default category [analytics], so each event
    method leaves the tracker as it is and has no effect but the report
    of an error thrown by the payload builder. *)
Theorem no_consent_configuration_delivers_nothing config now areaProp eventProp f
    params clock t :
  TrackerConfig.consent config = None →
  Tracker.method (Tracker.createTracker config now).1 areaProp eventProp = Some f →
  (f params clock t).1 = (Tracker.createTracker config now).1 ∧
  ((f params clock t).2 = [] ∨ ∃ msg, (f params clock t).2 = [(t, OnError msg None)]).
Proof.
  intros Hconsent Hf. unfold Tracker.method in Hf.
  destruct (bool_decide _); [discriminate|].
  destruct (Tracker.events _ !! areaProp) as [areaEvents|]; [|discriminate].
  destruct (property areaEvents eventProp) as [[eventDef|name]|]; [| |discriminate];
    injection Hf as <-.
  - destruct (TrackingEvent.buildPayload eventDef params) as [payload|msg].
    + unfold Tracker.dispatchEvent, Tracker.createTracker; simpl.
      rewrite Hconsent, new_without_config_denies. simpl. auto.
    + simpl. eauto.
  - simpl. eauto.
Qed.

Lemma no_consent_configuration_delivers_nothing_witness :
  let config := TrackerConfig.mk (catalog_with_key "auth::login")
                  [adapter_with "a" Returns] None None None None in
  let tr := (Tracker.createTracker config 0).1 in
  let f := λ (params : option (gmap string JsValue)) (clock : Z) (now : nat),
             Tracker.dispatchEvent tr clock now "auth::login" "auth" "login" ∅ in
  (TrackerConfig.consent config = None ∧
   Tracker.method tr "auth" "login" = Some f) ∧
  (f None 1000%Z 5).1 = tr.
Proof.
  intros config tr f.
  assert (H1 : TrackerConfig.consent config = None) by reflexivity.
  assert (H2 : Tracker.method tr "auth" "login" = Some f) by reflexivity.
  split; [auto|].
  exact (proj1 (no_consent_configuration_delivers_nothing config 0 "auth" "login" f
                  None 1000%Z 5 H1 H2)).
Defined.

(* ----------------------------------------------------------------- *)
(** ** Middleware chain *)

Section ChainMore.

Import Dispatcher.

Lemma foldl_next_index_mono chain fuel calls : ∀ st,
  index st ≤ index (foldl (next fuel chain) st calls).
Proof.
  induction calls as [|c rest IH]; intros st; simpl; [lia|].
  pose proof (next_index_mono chain fuel st c). specialize (IH (next fuel chain st c)). lia.
Qed.

(** A call of [next] resolves the chain or advances [index]. *)
Lemma next_progress chain fuel st e :
  resolved (next fuel chain st e) = true ∨ index st < index (next fuel chain st e).
Proof.
  rewrite next_eq. destruct (resolved st) eqn:Hres; [left; exact Hres|].
  destruct (length chain <=? S (index st)); [left; reflexivity|].
  right. cbv zeta.
  destruct fuel as [|fuel]; simpl; [lia|].
  destruct (chain !! S (index st)) as [mw|]; simpl; [|lia].
  pose proof (foldl_next_index_mono chain fuel (mw e)
                {| resolved := false; index := S (index st); value := value st |}) as H.
  simpl in H. lia.
Qed.

(** A resolved chain holds the event it resolved with. *)
Lemma next_resolved_value chain fuel : ∀ st e,
  (resolved st = true → is_Some (value st)) →
  resolved (next fuel chain st e) = true → is_Some (value (next fuel chain st e)).
Proof.
  induction fuel as [|fuel IH]; intros st e Hst; rewrite next_eq;
    destruct (resolved st) eqn:Hres; try (intros _; apply Hst; reflexivity);
    destruct (length chain <=? S (index st)); try (intros _; eexists; reflexivity);
    simpl; try discriminate.
  destruct (chain !! S (index st)) as [mw|]; simpl; [|discriminate].
  generalize (mw e). intros calls.
  enough (Hfold : ∀ s, (resolved s = true → is_Some (value s)) →
            resolved (foldl (next fuel chain) s calls) = true →
            is_Some (value (foldl (next fuel chain) s calls))).
  { apply Hfold. simpl. discriminate. }
  induction calls as [|c rest IHc]; intros s Hs; simpl; [exact Hs|].
  apply IHc. apply IH, Hs.
Qed.

Lemma foldl_next_resolved_value chain fuel calls : ∀ st,
  (resolved st = true → is_Some (value st)) →
  resolved (foldl (next fuel chain) st calls) = true →
  is_Some (value (foldl (next fuel chain) st calls)).
Proof.
  induction calls as [|c rest IH]; intros st Hst; simpl; [exact Hst|].
  apply IH. apply next_resolved_value, Hst.
Qed.

(** X8.  Once the first middleware has called [next] within its own
    invocation, the event is never reported as dropped: [index] is no
    longer [0], so the callback of the timer does nothing and the promise
    of the chain is not resolved with [null], whatever the rest of the
    chain does.  [dispatch] then does not fulfil without having called
    [send] of every adapter. *)
Theorem chain_never_drops_after_first_call first rest event now :
  first event ≠ [] →
  (∀ t, runMiddleware (first :: rest) event now ≠ At t (Fulfilled None)) ∧
  ∀ adapters T,
    settled (dispatch (mk adapters (first :: rest)) event now) = At T (Fulfilled tt) →
    ∃ t finalEvent,
      log (dispatch (mk adapters (first :: rest)) event now)
        = send_log finalEvent t adapters.
Proof.
  intros Hne.
  assert (Hrun : ∀ t, runMiddleware (first :: rest) event now ≠ At t (Fulfilled None)).
  { intros t. unfold runMiddleware. cbv zeta.
    set (chain := first :: rest).
    set (init := {| resolved := false; index := 0; value := None |}).
    assert (Hcalls :
              resolved (foldl (next (length chain) chain) init (first event)) = true ∨
              0 < index (foldl (next (length chain) chain) init (first event))).
    { destruct (first event) as [|c cs]; [congruence|]. cbn [foldl].
      destruct (next_progress chain (length chain) init c) as [Hres|Hidx].
      - left. rewrite foldl_next_resolved by exact Hres. exact Hres.
      - destruct (resolved (foldl (next (length chain) chain)
                              (next (length chain) chain init c) cs)) eqn:Hr;
          [left; reflexivity|right].
        pose proof (foldl_next_index_mono chain (length chain) cs
                      (next (length chain) chain init c)). lia. }
    assert (Hval : resolved (foldl (next (length chain) chain) init (first event)) = true →
              is_Some (value (foldl (next (length chain) chain) init (first event)))).
    { apply foldl_next_resolved_value. simpl. discriminate. }
    revert Hcalls Hval.
    generalize (foldl (next (length chain) chain) init (first event)).
    intros st Hcalls Hval.
    destruct (resolved st) eqn:Hres.
    - destruct (Hval eq_refl) as [e He]. rewrite He. discriminate.
    - destruct Hcalls as [?|Hidx]; [discriminate|].
      destruct (Nat.eqb_spec (index st) 0); [lia|discriminate]. }
  split; [exact Hrun|].
  intros adapters T Hs.
  destruct (await now (runMiddleware (first :: rest) event now))
    as [|t [[fe|]|m]] eqn:Ha.
  - unfold dispatch in Hs. cbn [middlewareChain] in Hs. rewrite Ha in Hs. discriminate.
  - exists t, fe. rewrite (dispatch_survived (mk adapters (first :: rest)) event now t fe Ha).
    reflexivity.
  - exfalso. unfold await in Ha.
    destruct (runMiddleware (first :: rest) event now) as [|t0 o0] eqn:Hr; [discriminate|].
    injection Ha as _ ->. exact (Hrun t0 eq_refl).
  - unfold dispatch in Hs. cbn [middlewareChain] in Hs. rewrite Ha in Hs. discriminate.
Qed.

Lemma chain_never_drops_after_first_call_witness :
  pass login_event ≠ [] ∧
  ∀ t, runMiddleware [pass; decline] login_event 0 ≠ At t (Fulfilled None).
Proof.
  assert (H : pass login_event ≠ []) by discriminate.
  split; [exact H|].
  exact (proj1 (chain_never_drops_after_first_call pass [decline] login_event 0 H)).
Defined.

Lemma next_through chain : Forall forwards chain →
  ∀ n i fuel x v,
    n = length chain - S i → i < length chain → length chain ≤ fuel + S i →
    next fuel chain {| resolved := false; index := i; value := v |} x =
      {| resolved := true; index := length chain;
         value := Some (through (drop (S i) chain) x) |}.
Proof.
  intros Hfw. induction n as [|n IH]; intros i fuel x v Hn Hi Hfuel;
    rewrite next_eq; simpl.
  - destruct (Nat.leb_spec (length chain) (S i)); [|lia].
    rewrite drop_ge by lia. simpl. f_equal. lia.
  - destruct (Nat.leb_spec (length chain) (S i)); [lia|].
    destruct fuel as [|fuel]; [lia|].
    destruct (lookup_lt_is_Some_2 chain (S i)) as [mw Hmw]; [lia|].
    rewrite Hmw. rewrite (drop_S _ _ _ Hmw).
    assert (Hf : forwards mw).
    { rewrite Forall_forall in Hfw. apply Hfw.
      eapply list_elem_of_lookup_2; exact Hmw. }
    specialize (Hf x). destruct (mw x) as [|y [|? ?]] eqn:Hmwx; simpl in Hf; try lia.
    simpl. rewrite Hmwx. simpl. apply IH; lia.
Qed.

(** X7.  Middlewares run in registration order, each on the event that
    its predecessor passed on: a chain of middlewares that each call
    [next] once resolves within the call, with the event made by
    applying them one after the other, and that event is the one every
    adapter receives. *)
Theorem forwarding_chain_composes adapters chain event now :
  Forall forwards chain →
  runMiddleware chain event now = At now (Fulfilled (Some (through chain event))) ∧
  log (dispatch (mk adapters chain) event now)
    = send_log (through chain event) (S now) adapters.
Proof.
  intros Hfw.
  assert (Hrun : runMiddleware chain event now
                 = At now (Fulfilled (Some (through chain event)))).
  { unfold runMiddleware. destruct chain as [|first rest]; [reflexivity|].
    cbv zeta.
    pose proof (Forall_inv Hfw event) as Hfirst.
    destruct (first event) as [|y [|? ?]] eqn:Hy; simpl in Hfirst; try lia.
    cbn [foldl].
    rewrite (next_through (first :: rest) Hfw (length (first :: rest) - 1) 0
               (length (first :: rest)) y None eq_refl) by (simpl; lia).
    simpl. rewrite Hy. reflexivity. }
  split; [exact Hrun|].
  rewrite (dispatch_survived (mk adapters chain) event now (S now) (through chain event)).
  - reflexivity.
  - simpl. rewrite Hrun. unfold await. rewrite Nat.max_id. reflexivity.
Qed.

Lemma forwarding_chain_composes_witness :
  let enrich : Middleware :=
    λ e, [mkEvent (key e) (area e) (eventName e) (payload e) (timestamp e)
            (<["x" := JNum 1]> (metadata e))] in
  let chain := [enrich; pass] in
  Forall forwards chain ∧
  log (dispatch (mk [adapter_with "a" Returns; adapter_with "b" Returns] chain)
         login_event 0)
    = send_log (through chain login_event) 1
        [adapter_with "a" Returns; adapter_with "b" Returns].
Proof.
  intros enrich chain.
  assert (H : Forall forwards chain) by (repeat constructor).
  split; [exact H|].
  exact (proj2 (forwarding_chain_composes _ chain login_event 0 H)).
Defined.

End ChainMore.

(* ----------------------------------------------------------------- *)
(** ** debugMiddleware *)

Section DebugMore.

Import Dispatcher.

Variable chain : list Middleware.
Variable last : Middleware.
Hypothesis last_forwards : ∀ x, last x = [x].

Lemma next_together fuel : ∀ st st' x,
  together chain st st' →
  length chain ≤ fuel + S (index st) →
  together chain (next fuel chain st x) (next (S fuel) (chain ++ [last]) st' x).
Proof.
  induction fuel as [|fuel IH]; intros st st' x Hst Hfuel.
  - destruct Hst as [(Hres & -> & Hi)|(Hres & Hres' & Hv)].
    + rewrite !next_eq, Hres, length_app. simpl.
      destruct (Nat.leb_spec (length chain) (S (index st))); [|lia].
      destruct (Nat.leb_spec (length chain + 1) (S (index st))); [lia|].
      assert (Hlen : S (index st) = length chain) by lia.
      rewrite Hlen, list_lookup_middle by reflexivity.
      rewrite last_forwards. simpl. rewrite length_app. simpl.
      destruct (Nat.leb_spec (length chain + 1) (S (length chain))); [|lia].
      right. auto.
    + rewrite !next_resolved by assumption. right. auto.
  - destruct Hst as [(Hres & -> & Hi)|(Hres & Hres' & Hv)].
    + rewrite (next_eq chain (S fuel)), (next_eq (chain ++ [last]) (S (S fuel))).
      rewrite Hres, length_app. simpl length.
      destruct (Nat.leb_spec (length chain) (S (index st))).
      * destruct (Nat.leb_spec (length chain + 1) (S (index st))); [lia|].
        assert (Hlen : S (index st) = length chain) by lia.
        cbv zeta. rewrite Hlen, list_lookup_middle by reflexivity.
        rewrite last_forwards. cbn [foldl]. rewrite next_eq. simpl.
        rewrite length_app. simpl.
        destruct (Nat.leb_spec (length chain + 1) (S (length chain))); [|lia].
        right. auto.
      * destruct (Nat.leb_spec (length chain + 1) (S (index st))); [lia|].
        cbv zeta. rewrite lookup_app_l by lia.
        destruct (chain !! S (index st)) as [mw|].
        2:{ left. simpl. repeat split; try reflexivity; simpl; lia. }
        generalize (mw x). intros calls.
        enough (Hfold : ∀ s s', together chain s s' → S (index st) ≤ index s →
                  together chain (foldl (next fuel chain) s calls)
                           (foldl (next (S fuel) (chain ++ [last])) s' calls)).
        { apply Hfold; [|simpl; lia]. left. simpl. repeat split; try reflexivity; simpl; lia. }
        induction calls as [|c more IHc]; intros s s' Hs Hidx; simpl; [exact Hs|].
        apply IHc; [apply IH; [exact Hs|lia]|].
        pose proof (next_index_mono chain fuel s c). lia.
    + rewrite !next_resolved by assumption. right. auto.
Qed.

Lemma foldl_next_together fuel calls : ∀ st st',
  together chain st st' →
  length chain ≤ fuel + S (index st) →
  together chain (foldl (next fuel chain) st calls)
           (foldl (next (S fuel) (chain ++ [last])) st' calls).
Proof.
  induction calls as [|c more IH]; intros st st' Hst Hfuel; simpl; [exact Hst|].
  apply IH; [apply next_together; assumption|].
  pose proof (next_index_mono chain fuel st c). lia.
Qed.

End DebugMore.

(** A middleware that passes on what it receives can be put at the end
    of a chain without changing what the chain resolves with. *)
Lemma runMiddleware_trailing_forwarder chain last event now :
  (∀ x, last x = [x]) →
  Dispatcher.runMiddleware (chain ++ [last]) event now
    = Dispatcher.runMiddleware chain event now.
Proof.
  intros Hlast. unfold Dispatcher.runMiddleware. destruct chain as [|first rest].
  - simpl. rewrite Hlast. reflexivity.
  - change ((first :: rest) ++ [last]) with (first :: (rest ++ [last])).
    cbv beta iota zeta.
    change (first :: (rest ++ [last])) with ((first :: rest) ++ [last]).
    assert (Hlen : length ((first :: rest) ++ [last]) = S (length (first :: rest)))
      by (rewrite length_app; simpl; lia).
    rewrite Hlen.
    pose proof (foldl_next_together (first :: rest) last Hlast
                  (length (first :: rest)) (first event)
                  {| Dispatcher.resolved := false; Dispatcher.index := 0;
                     Dispatcher.value := None |}
                  {| Dispatcher.resolved := false; Dispatcher.index := 0;
                     Dispatcher.value := None |}) as H.
    revert H.
    generalize (foldl (Dispatcher.next (length (first :: rest)) (first :: rest))
                  {| Dispatcher.resolved := false; Dispatcher.index := 0;
                     Dispatcher.value := None |} (first event)).
    generalize (foldl (Dispatcher.next (S (length (first :: rest)))
                         ((first :: rest) ++ [last]))
                  {| Dispatcher.resolved := false; Dispatcher.index := 0;
                     Dispatcher.value := None |} (first event)).
    intros st' st H.
    destruct H as [(Hres & -> & _)|(Hres & Hres' & Hv)].
    + left. simpl. repeat split; try reflexivity; lia.
    + simpl. lia.
    + reflexivity.
    + rewrite Hres, Hres', Hv. reflexivity.
Qed.

Lemma debugMiddleware_forwards options event :
  Debug.middleware options event = [event].
Proof.
  unfold Debug.middleware, Debug.debugMiddleware.
  destruct (Debug.area_set options); [destruct (bool_decide _)|]; reflexivity.
Qed.

(** X9.  [debugMiddleware] only observes: it calls [next] once with the
    event it received; it logs at most one line, and none exactly when
    areas are given and the area of the event is not among them; and
    put at the end of a chain it changes neither what [runMiddleware]
    resolves with nor what [dispatch] does. *)
Theorem debugMiddleware_only_observes options adapters chain event now :
  (Debug.debugMiddleware options event).2 = [event] ∧
  length (Debug.debugMiddleware options event).1 ≤ 1 ∧
  ((Debug.debugMiddleware options event).1 = [] ↔
   ∃ selected, options ≫= Debug.areas = Some selected ∧ area event ∉ selected) ∧
  Dispatcher.runMiddleware (chain ++ [Debug.middleware options]) event now
    = Dispatcher.runMiddleware chain event now ∧
  Dispatcher.dispatch (Dispatcher.mk adapters (chain ++ [Debug.middleware options]))
    event now
    = Dispatcher.dispatch (Dispatcher.mk adapters chain) event now.
Proof.
  assert (Hrun : ∀ e t,
            Dispatcher.runMiddleware (chain ++ [Debug.middleware options]) e t
            = Dispatcher.runMiddleware chain e t).
  { intros e t. apply runMiddleware_trailing_forwarder.
    apply debugMiddleware_forwards. }
  split; [apply debugMiddleware_forwards|].
  split; [|split; [|split; [apply Hrun|]]].
  - unfold Debug.debugMiddleware.
    destruct (Debug.area_set options); [destruct (bool_decide _)|]; simpl; lia.
  - unfold Debug.debugMiddleware, Debug.area_set.
    destruct (options ≫= Debug.areas) as [selected|].
    + destruct (bool_decide_reflect (area event ∈ selected)) as [Hin|Hout]; simpl.
      * split; [discriminate|]. intros (sel & [= <-] & Hn). contradiction.
      * split; [|reflexivity]. intros _. exists selected. auto.
    + simpl. split; [discriminate|]. intros (sel & Hsel & _). discriminate.
  - unfold Dispatcher.dispatch. simpl. rewrite Hrun. reflexivity.
Qed.

(* ----------------------------------------------------------------- *)
(** ** Creation and teardown of the tracker *)




(* ----------------------------------------------------------------- *)
(** ** Delivery of a batch *)

Section BatchMore.

Import Dispatcher.

Lemma await_call_succeeds now b :
  succeeds b = true → ∃ t, await_call now b = At t (Fulfilled tt) ∧ now < t.
Proof.
  destruct b; try discriminate; intros _; unfold await_call; simpl;
    eexists; (split; [reflexivity|lia]).
Qed.

Lemma await_call_fails now b :
  fails b = true →
  ∃ t m, await_call now b = At t (Rejected m) ∧ failure b = Some m.
Proof.
  destruct b; try discriminate; intros _; unfold await_call; simpl;
    do 2 eexists; (split; reflexivity).
Qed.

(** An adapter without [sendBatch] whose calls succeed gets the events
    one by one, in order. *)
Lemma send_each_all_succeed a processed : ∀ now,
  Forall (λ e, succeeds (Adapter.send a e) = true) processed →
  map snd (send_each a processed now).1 = map (Send (Adapter.name a)) processed ∧
  ∃ t, (send_each a processed now).2 = At t (Fulfilled tt).
Proof.
  induction processed as [|e rest IH]; intros now Hall; simpl.
  - split; [reflexivity|eexists; reflexivity].
  - destruct (await_call_succeeds now _ (Forall_inv Hall)) as (t & -> & _).
    destruct (IH t (Forall_inv_tail Hall)) as (Hlog & T & HT).
    destruct (send_each a rest t) as [lg p]; simpl in *.
    rewrite Hlog. split; [reflexivity|exists T; exact HT].
Qed.

(** X12.  The one-by-one delivery of a batch to an adapter without
    [sendBatch] stops at the first call of [send] that fails: the events
    before it and the failing one are sent, in order, the events after
    it are never sent to that adapter, and the error is the one of the
    failing call. *)
Theorem fallback_stops_at_first_failure a sent bad unsent now :
  Forall (λ e, succeeds (Adapter.send a e) = true) sent →
  fails (Adapter.send a bad) = true →
  map snd (send_each a (sent ++ bad :: unsent) now).1
    = map (Send (Adapter.name a)) (sent ++ [bad]) ∧
  ∃ t m, (send_each a (sent ++ bad :: unsent) now).2 = At t (Rejected m) ∧
         failure (Adapter.send a bad) = Some m.
Proof.
  revert now. induction sent as [|e rest IH]; intros now Hall Hbad; simpl.
  - destruct (await_call_fails now _ Hbad) as (t & m & -> & Hm).
    simpl. split; [reflexivity|]. exists t, m. auto.
  - destruct (await_call_succeeds now _ (Forall_inv Hall)) as (t & -> & _).
    destruct (IH t (Forall_inv_tail Hall) Hbad) as (Hlog & T & m & HT & Hm).
    destruct (send_each a (rest ++ bad :: unsent) t) as [lg p]; simpl in *.
    rewrite Hlog. split; [reflexivity|]. exists T, m. auto.
Qed.

Lemma fallback_stops_at_first_failure_witness :
  let a := Adapter.mk "a" None
             (λ e, if String.eqb (eventName e) "logout" then Throws "down" else Returns)
             None None in
  (Forall (λ e, succeeds (Adapter.send a e) = true) [login_event] ∧
   fails (Adapter.send a logout_event) = true) ∧
  map snd (send_each a ([login_event] ++ logout_event :: [login_event]) 0).1
    = [Send "a" login_event; Send "a" logout_event].
Proof.
  intros a.
  assert (H1 : Forall (λ e, succeeds (Adapter.send a e) = true) [login_event])
    by (repeat constructor).
  assert (H2 : fails (Adapter.send a logout_event) = true) by reflexivity.
  split; [auto|].
  exact (proj1 (fallback_stops_at_first_failure a [login_event] logout_event
                  [login_event] 0 H1 H2)).
Defined.

Lemma js_map_batch_task processed now adapters :
  ∃ ps, js_map (batch_task processed now) adapters =
          (concat (map (λ a, (batch_task processed now a).1) adapters), Normal ps).
Proof.
  induction adapters as [|a rest (ps & IH)]; simpl; [eexists; reflexivity|].
  rewrite IH. unfold batch_task at 1 3.
  destruct (Adapter.sendBatch a); [eexists; reflexivity|].
  destruct (send_each a processed now) as [lg p]. eexists; reflexivity.
Qed.

(** X13.  The survivors of a batch reach every adapter, by the path the
    adapter has: an adapter with [sendBatch] gets one call with all the
    survivors, in their order; an adapter without gets them one by one;
    the adapters are served in their order and a failure of one does not
    keep the others from being served. *)
Theorem batch_is_delivered_by_capability d events now t processed :
  process (middlewareChain d) events [] now = At t (Fulfilled processed) →
  processed ≠ [] →
  log (dispatchBatch d events now) =
    concat (map (λ a, match Adapter.sendBatch a with
                      | Some _ => [(t, SendBatch (Adapter.name a) processed)]
                      | None => (send_each a processed t).1
                      end) (adapters d)).
Proof.
  intros Hproc Hne. unfold dispatchBatch. rewrite Hproc.
  destruct (Nat.eqb_spec (length processed) 0) as [H0|_].
  { apply nil_length_inv in H0. contradiction. }
  destruct (js_map_batch_task processed t (adapters d)) as (ps & ->). simpl.
  f_equal. apply map_ext. intros a. unfold batch_task.
  destruct (Adapter.sendBatch a); [reflexivity|].
  destruct (send_each a processed t); reflexivity.
Qed.

Lemma batch_is_delivered_by_capability_witness :
  let batching := Adapter.mk "batching" None (λ _, Returns) (Some (λ _, Throws "down")) None in
  let d := mk [batching; adapter_with "single" Returns] [] in
  let events := [login_event; logout_event] in
  (process (middlewareChain d) events [] 0 = At 2 (Fulfilled events) ∧ events ≠ []) ∧
  log (dispatchBatch d events 0) =
    [(2, SendBatch "batching" events);
     (2, Send "single" login_event); (3, Send "single" logout_event)].
Proof.
  intros batching d events.
  assert (H1 : process (middlewareChain d) events [] 0 = At 2 (Fulfilled events))
    by reflexivity.
  assert (H2 : events ≠ []) by discriminate.
  split; [auto|].
  exact (batch_is_delivered_by_capability d events 0 2 events H1 H2).
Defined.

Lemma runMiddleware_shift chain event now :
  runMiddleware chain event now =
    match runMiddleware chain event 0 with
    | Never => Never
    | At t o => At (t + now) o
    end.
Proof.
  unfold runMiddleware. destruct chain as [|first rest]; [reflexivity|].
  cbv zeta. destruct (resolved _); [reflexivity|].
  destruct (_ =? 0); reflexivity.
Qed.

Lemma process_survivors chain events : ∀ acc now,
  if forallb (resolves chain) events
  then ∃ t, process chain events acc now
              = At t (Fulfilled (acc ++ omap (survivor chain) events)) ∧ now ≤ t
  else process chain events acc now = Never.
Proof.
  induction events as [|e rest IH]; intros acc now; simpl.
  - exists now. rewrite app_nil_r. auto.
  - rewrite (runMiddleware_shift chain e now).
    unfold resolves at 1, survivor at 1.
    pose proof (runMiddleware_not_rejected chain e 0) as Hnr.
    destruct (runMiddleware chain e 0) as [|t0 [result|m]]; simpl.
    + reflexivity.
    + specialize (IH (acc ++ option_list result) (S (Nat.max (t0 + now) now))).
      destruct (forallb (resolves chain) rest).
      * destruct IH as (t & -> & Hle). exists t. split; [|lia].
        destruct result; simpl; rewrite <- app_assoc; reflexivity.
      * exact IH.
    + exfalso. eapply Hnr. reflexivity.
Qed.

(** X14.  [dispatchBatch] runs the events of a batch through the chain
    one after the other: when the chain resolves for each of them, the
    survivors are the events that the chain did not drop, as the chain
    left them and in the order of the batch; when the chain stays
    pending for one of them, the loop never ends and no adapter is
    contacted. *)
Theorem batch_survivors_keep_order d events now :
  if forallb (resolves (middlewareChain d)) events
  then ∃ t, process (middlewareChain d) events [] now
              = At t (Fulfilled (omap (survivor (middlewareChain d)) events))
  else dispatchBatch d events now = {| settled := Never; log := [] |}.
Proof.
  pose proof (process_survivors (middlewareChain d) events [] now) as H.
  destruct (forallb (resolves (middlewareChain d)) events).
  - destruct H as (t & Ht & _). exists t. exact Ht.
  - unfold dispatchBatch. rewrite H. reflexivity.
Qed.

End BatchMore.

(* ----------------------------------------------------------------- *)
(** ** The tracker *)

Lemma send_log_only_sends finalEvent t adapters :
  List.filter is_OnError (send_log finalEvent t adapters) = [] ∧
  List.filter is_UnhandledRejection (send_log finalEvent t adapters) = [].
Proof. induction adapters as [|a rest [IH1 IH2]]; simpl; auto. Qed.

(** X15.  On the direct path [onError] is called exactly when [dispatch]
    is rejected: once, with the error of the rejection and the event,
    one turn after the rejection; when [dispatch] is fulfilled or stays
    pending [onError] is not called.  In no case is a rejection left
    unhandled, and the tracker is as before. *)
Theorem onError_exactly_when_dispatch_rejects tr clock now key area eventName payload :
  let event := Tracker.build_event tr clock key area eventName payload in
  let result := Tracker.dispatchEvent tr clock now key area eventName payload in
  Tracker.queue tr = None →
  ConsentManager.isAllowed (Tracker.consentManager tr) event = true →
  result.1 = tr ∧
  List.filter is_UnhandledRejection result.2 = [] ∧
  List.filter is_OnError result.2 =
    match settled (Dispatcher.dispatch (Tracker.dispatcher tr) event now) with
    | At T (Rejected msg) => [(S T, OnError msg (Some event))]
    | _ => []
    end.
Proof.
  intros event result Hq Hallowed. subst result. unfold Tracker.dispatchEvent.
  fold event. rewrite Hallowed, Hq. simpl. split; [reflexivity|].
  unfold Tracker.catch_onError. rewrite !List.filter_app.
  assert (Hlog : List.filter is_OnError
                   (log (Dispatcher.dispatch (Tracker.dispatcher tr) event now)) = [] ∧
                 List.filter is_UnhandledRejection
                   (log (Dispatcher.dispatch (Tracker.dispatcher tr) event now)) = []).
  { destruct (dispatch_log (Tracker.dispatcher tr) event now) as [->|(t & fe & _ & ->)];
      [auto|apply send_log_only_sends]. }
  destruct Hlog as [-> ->].
  destruct (settled _) as [|T [[]|msg]]; auto.
Qed.

Lemma onError_exactly_when_dispatch_rejects_witness :
  let tr := (Tracker.createTracker
               (config_with (catalog_with_key "auth::login")
                  [adapter_with "a" Returns; adapter_with "b" (Rejects 2 "late")] None)
               0).1 in
  let event := Tracker.build_event tr 1000%Z "auth::login" "auth" "login" ∅ in
  let result := Tracker.dispatchEvent tr 1000%Z 0 "auth::login" "auth" "login" ∅ in
  (Tracker.queue tr = None ∧
   ConsentManager.isAllowed (Tracker.consentManager tr) event = true) ∧
  List.filter is_OnError result.2 =
    [(7, OnError (Dispatcher.adapter_error (adapter_with "b" (Rejects 2 "late")) "late")
           (Some event))].
Proof.
  intros tr event result.
  assert (H1 : Tracker.queue tr = None) by reflexivity.
  assert (H2 : ConsentManager.isAllowed (Tracker.consentManager tr) event = true)
    by reflexivity.
  split; [auto|].
  exact (proj2 (proj2 (onError_exactly_when_dispatch_rejects tr 1000%Z 0
                         "auth::login" "auth" "login" ∅ H1 H2))).
Defined.

(** X16.  Consent is checked when an event is emitted and not again:
    [setConsent] leaves the buffer of the queue as it is, so events
    buffered before consent is withdrawn are still delivered by the next
    flush, which does the same as without the update. *)
Theorem setConsent_keeps_the_buffer tr state now :
  Tracker.queue (Tracker.setConsent tr state) = Tracker.queue tr ∧
  (Tracker.flush (Tracker.setConsent tr state) now).2 = (Tracker.flush tr now).2 ∧
  ∀ q, Tracker.queue tr = Some q →
       EventQueue.queue q ≠ [] →
       ∃ lg, log (Tracker.flush (Tracker.setConsent tr state) now).2
               = (now, OnFlush (EventQueue.queue q)) :: lg.
Proof.
  split; [reflexivity|]. split.
  - unfold Tracker.flush, Tracker.setConsent; simpl.
    destruct (Tracker.queue tr) as [q|]; [|reflexivity].
    destruct (EventQueue.flush q now). reflexivity.
  - intros q Hq Hne. unfold Tracker.flush, Tracker.setConsent; simpl. rewrite Hq.
    unfold EventQueue.flush.
    destruct (Nat.eqb_spec (length (EventQueue.queue q)) 0) as [H0|_].
    { apply nil_length_inv in H0. contradiction. }
    destruct (EventQueue.onFlush q (EventQueue.queue q) now) as [lg [p|m]];
      simpl; eexists; reflexivity.
Qed.

(* ----------------------------------------------------------------- *)
(** ** The Snowplow adapter *)

Section SnowplowMore.

Variable config : Snowplow.SnowplowConfig.
Variable event : DispatchedEvent.

(** What a context holds under a name. *)
Lemma context_part_lookup fs k :
  context_part event fs !! k =
    if String.eqb k "__proto__" then None
    else if bool_decide (k ∈ fs) then Snowplow.read_field event k else None.
Proof.
  induction fs as [|f fs IH]; cbn [context_part foldr].
  - rewrite lookup_empty. destruct (String.eqb k "__proto__"); reflexivity.
  - fold (context_part event fs).
    destruct (String.eqb k "__proto__") eqn:Hk.
    + destruct (String.eqb f "__proto__") eqn:Hf; [exact IH|].
      apply String.eqb_eq in Hk. apply String.eqb_neq in Hf.
      destruct (Snowplow.read_field event f) as [v|]; [|exact IH].
      rewrite lookup_insert_ne by congruence. exact IH.
    + destruct (decide (k = f)) as [->|Hne].
      * rewrite Hk, bool_decide_eq_true_2 by left.
        destruct (Snowplow.read_field event f) as [v|] eqn:Hp.
        -- rewrite lookup_insert_eq. reflexivity.
        -- rewrite IH. destruct (bool_decide (f ∈ fs)); reflexivity.
      * assert (Hmem : bool_decide (k ∈ f :: fs) = bool_decide (k ∈ fs)).
        { apply bool_decide_ext. rewrite elem_of_cons. intuition congruence. }
        rewrite Hmem.
        destruct (String.eqb f "__proto__"); [exact IH|].
        destruct (Snowplow.read_field event f) as [v|]; [|exact IH].
        rewrite lookup_insert_ne by congruence. exact IH.
Qed.

(** One round of the inner loop of [buildContexts]. *)
Lemma context_part_snoc fs f :
  context_part event (fs ++ [f]) =
    match Snowplow.read_field event f with
    | Some v => put (context_part event fs) f v
    | None => context_part event fs
    end.
Proof.
  apply map_eq. intros k. rewrite context_part_lookup.
  assert (Hmem : k ≠ f → bool_decide (k ∈ fs ++ [f]) = bool_decide (k ∈ fs)).
  { intros Hne. apply bool_decide_ext.
    rewrite elem_of_app, list_elem_of_singleton. intuition congruence. }
  assert (Hlast : bool_decide (f ∈ fs ++ [f]) = true)
    by (apply bool_decide_eq_true_2, elem_of_app; right; left).
  destruct (Snowplow.read_field event f) as [v|] eqn:Hp.
  - assert (Hput : put (context_part event fs) f v =
              if String.eqb f "__proto__" then context_part event fs
              else <[f := v]> (context_part event fs)).
    { unfold put. destruct (String.eqb f "__proto__") eqn:Hf; [|reflexivity].
      apply String.eqb_eq in Hf. subst f.
      rewrite (bool_decide_eq_false_2 (is_Some _)); [reflexivity|].
      rewrite context_part_lookup. cbn. intros [x Hx]. discriminate. }
    rewrite Hput. clear Hput.
    destruct (String.eqb f "__proto__") eqn:Hf.
    + rewrite context_part_lookup.
      destruct (String.eqb k "__proto__") eqn:Hk; [reflexivity|].
      rewrite Hmem; [reflexivity|]. intros ->. congruence.
    + destruct (decide (k = f)) as [->|Hne].
      * rewrite Hf, Hlast, lookup_insert_eq. exact Hp.
      * rewrite lookup_insert_ne by congruence.
        rewrite context_part_lookup, Hmem by exact Hne. reflexivity.
  - rewrite context_part_lookup.
    destruct (String.eqb k "__proto__") eqn:Hk; [reflexivity|].
    destruct (decide (k = f)) as [->|Hne].
    + rewrite Hlast, Hp. destruct (bool_decide (f ∈ fs)); reflexivity.
    + rewrite Hmem by exact Hne. reflexivity.
Qed.

(** The inner loop of [buildContexts] collects what the fields read, and
    [hasData] tells whether a field was readable. *)
Lemma context_data_part fs :
  Snowplow.context_data event fs =
    (context_part event fs, existsb (readable event) fs).
Proof.
  unfold Snowplow.context_data.
  induction fs as [|f fs IH] using rev_ind; [reflexivity|].
  rewrite foldl_app. cbn [foldl]. rewrite IH. clear IH. cbn [fst].
  rewrite context_part_snoc, existsb_app. cbn [existsb].
  assert (Hr : readable event f =
            match Snowplow.read_field event f with Some _ => true | None => false end)
    by reflexivity.
  rewrite Hr.
  destruct (Snowplow.read_field event f) as [v|]; cbn [orb];
    rewrite ?orb_true_r, ?orb_false_r; reflexivity.
Qed.

(** A field of a context definition is in the set of context fields. *)
Lemma contextFieldSet_field ctx f :
  ctx ∈ Snowplow.contextDefs config →
  f ∈ Snowplow.fields ctx.2 →
  f ∈ Snowplow.contextFieldSet config.
Proof.
  intros Hctx Hf. unfold Snowplow.contextFieldSet.
  apply list_elem_of_In, in_concat. exists (Snowplow.fields ctx.2).
  split; [|by apply list_elem_of_In].
  apply in_map_iff. exists ctx. split; [reflexivity|by apply list_elem_of_In].
Qed.

End SnowplowMore.

(** The contexts are what the definitions read of the payload, one for
    each definition that has a readable field, in the order of the
    definitions. *)
Lemma buildContexts_parts config event :
  Snowplow.buildContexts config event =
    omap (λ ctx : string * Snowplow.ContextDef,
            if existsb (readable event) (Snowplow.fields ctx.2)
            then Some (Snowplow.mkEntity
                         (Snowplow.buildSchemaUri (Snowplow.vendor config) ctx.1
                            (default (Snowplow.the_defaultSchemaVersion config)
                               (Snowplow.version ctx.2)))
                         (context_part event (Snowplow.fields ctx.2)))
            else None)
         (Snowplow.contextDefs config).
Proof.
  unfold Snowplow.buildContexts.
  induction (Snowplow.contextDefs config) as [|ctx rest IH]; [reflexivity|].
  cbn [omap list_omap]. rewrite IH, context_data_part.
  destruct (existsb (readable event) (Snowplow.fields ctx.2)); reflexivity.
Qed.

(** What [payload[field]] yields when it is neither [undefined] nor
    [null]. *)
Lemma read_field_cases event k :
  Snowplow.read_field event k =
    match payload event !! k with
    | Some v => if is_null v then None else Some (Val v)
    | None => if bool_decide (k ∈ prototype_names) then Some (Member k) else None
    end.
Proof.
  unfold Snowplow.read_field, property. destruct (payload event !! k) as [v|].
  - destruct v; reflexivity.
  - destruct (inherited k) eqn:Hk; cbn [non_null].
    + rewrite bool_decide_eq_true_2 by (apply inherited_elem; exact Hk). reflexivity.
    + rewrite bool_decide_eq_false_2; [reflexivity|].
      intros Hin. apply inherited_elem in Hin. congruence.
Qed.

(** X17.  The Snowplow adapter routes every field of the payload at most
    one way.  The main event data holds exactly the fields of the payload
    that hold a value other than [null] and [undefined] and are neither
    excluded nor used by a context nor named [__proto__], with their
    values.  What a context entity holds under a name is either the
    value that the payload has under that name, and then the main event
    data has nothing under it, or the member that every object inherits
    under that name, and then the payload has no property of that name.
    An entity without data comes only from a definition that lists the
    field [__proto__].  The excluded fields are those of the
    configuration, and [event_name], [schema_vendor] and
    [schema_version] when it gives none; the fields used by a context
    are the fields of the context definitions. *)
Theorem snowplow_fields_are_routed_once config event :
  (Snowplow.excludeSet config =
     match Snowplow.excludeFields config with
     | Some fields => fields
     | None => ["event_name"; "schema_vendor"; "schema_version"]%string
     end) ∧
  (∀ k, k ∈ Snowplow.contextFieldSet config ↔
        ∃ ctx, ctx ∈ default [] (Snowplow.contexts config) ∧ k ∈ Snowplow.fields ctx.2) ∧
  (∀ k v, Snowplow.buildEventData config event !! k = Some v ↔
          payload event !! k = Some v ∧
          (k ∉ Snowplow.excludeSet config) ∧ (k ∉ Snowplow.contextFieldSet config) ∧
          is_null v = false ∧ k ≠ "__proto__"%string) ∧
  (∀ entity, entity ∈ Snowplow.buildContexts config event →
     (∀ k v, Snowplow.data entity !! k = Some (Val v) →
             payload event !! k = Some v ∧ is_null v = false ∧
             Snowplow.buildEventData config event !! k = None) ∧
     (∀ k name, Snowplow.data entity !! k = Some (Member name) →
                name = k ∧ inherited k = true ∧ payload event !! k = None ∧
                Snowplow.buildEventData config event !! k = None) ∧
     (Snowplow.data entity = ∅ →
      ∃ ctx, ctx ∈ Snowplow.contextDefs config ∧
             ("__proto__"%string ∈ Snowplow.fields ctx.2))).
Proof.
  split; [unfold Snowplow.excludeSet; destruct (Snowplow.excludeFields config);
          reflexivity|].
  split; [|split].
  - intros k. unfold Snowplow.contextFieldSet, Snowplow.contextDefs.
    rewrite list_elem_of_In, in_concat. split.
    + intros (fs & Hfs & Hk). apply in_map_iff in Hfs as (ctx & <- & Hctx).
      exists ctx. split; apply list_elem_of_In; assumption.
    + intros (ctx & Hctx & Hk). exists (Snowplow.fields ctx.2).
      split; [|apply list_elem_of_In; exact Hk].
      apply in_map_iff. exists ctx. split; [reflexivity|].
      apply list_elem_of_In. exact Hctx.
  - intros k v. unfold Snowplow.buildEventData.
    rewrite map_lookup_filter_Some. reflexivity.
  - intros entity. rewrite buildContexts_parts.
    rewrite list_elem_of_omap. intros (ctx & Hctx & Hsome).
    destruct (existsb (readable event) (Snowplow.fields ctx.2)) eqn:Hread;
      [|discriminate].
    injection Hsome as <-. cbn [Snowplow.data].
    assert (Hfield : ∀ k x, context_part event (Snowplow.fields ctx.2) !! k = Some x →
              k ∈ Snowplow.fields ctx.2 ∧ Snowplow.read_field event k = Some x ∧
              Snowplow.buildEventData config event !! k = None).
    { intros k x. rewrite context_part_lookup.
      destruct (String.eqb k "__proto__"); [discriminate|].
      destruct (bool_decide_reflect (k ∈ Snowplow.fields ctx.2)) as [Hin|];
        [|discriminate].
      intros Hp. split; [exact Hin|]. split; [exact Hp|].
      unfold Snowplow.buildEventData. apply map_lookup_filter_None. right.
      intros w _ (_ & Hout & _). cbn [fst] in Hout. apply Hout.
      eapply contextFieldSet_field; eassumption. }
    split; [|split].
    + intros k v Hk. destruct (Hfield k _ Hk) as (_ & Hp & Hmain).
      rewrite read_field_cases in Hp.
      destruct (payload event !! k) as [w|].
      * destruct (is_null w) eqn:Hw; [discriminate|].
        injection Hp as <-. auto.
      * destruct (bool_decide (k ∈ prototype_names)); discriminate.
    + intros k name Hk. destruct (Hfield k _ Hk) as (_ & Hp & Hmain).
      rewrite read_field_cases in Hp.
      destruct (payload event !! k) as [w|].
      * destruct (is_null w); discriminate.
      * destruct (bool_decide_reflect (k ∈ prototype_names)) as [Hin|]; [|discriminate].
        injection Hp as <-. apply inherited_elem in Hin. auto.
    + intros Hempty. exists ctx. split; [exact Hctx|].
      apply existsb_exists in Hread as (f & Hin & Hf).
      apply list_elem_of_In in Hin. unfold readable in Hf.
      destruct (Snowplow.read_field event f) as [x|] eqn:Hp; [|discriminate].
      destruct (String.eqb_spec f "__proto__") as [<-|Hne]; [exact Hin|].
      exfalso.
      assert (Hx : context_part event (Snowplow.fields ctx.2) !! f = Some x).
      { rewrite context_part_lookup.
        destruct (String.eqb_spec f "__proto__"); [contradiction|].
        rewrite bool_decide_eq_true_2 by exact Hin. exact Hp. }
      rewrite Hempty, lookup_empty in Hx. discriminate.
Qed.

(** X18.  The contexts follow the configuration: there is one entity for
    each context definition that has a readable field, in the order of
    the definitions, and none for the others; a field is readable when
    the payload has a property of that name that holds a value other
    than [null] and [undefined], or when the payload has no property of
    that name and the name is the one of an inherited member.  The
    schema of the entity is built from the vendor, the name of the
    definition and its version, or the default version when it has none;
    its data hold, for every readable field of the definition but
    [__proto__], what the read yields. *)
Theorem snowplow_contexts_follow_definitions config event :
  Snowplow.buildContexts config event =
    omap (λ ctx : string * Snowplow.ContextDef,
            if existsb (readable event) (Snowplow.fields ctx.2)
            then Some (Snowplow.mkEntity
                         (Snowplow.buildSchemaUri (Snowplow.vendor config) ctx.1
                            (default (Snowplow.the_defaultSchemaVersion config)
                               (Snowplow.version ctx.2)))
                         (context_part event (Snowplow.fields ctx.2)))
            else None)
         (Snowplow.contextDefs config) ∧
  (∀ fs k,
     context_part event fs !! k =
       if String.eqb k "__proto__" then None
       else if bool_decide (k ∈ fs) then Snowplow.read_field event k else None) ∧
  (∀ f, readable event f = true ↔
        (∃ v, payload event !! f = Some v ∧ is_null v = false) ∨
        (payload event !! f = None ∧ f ∈ prototype_names)) ∧
  (∀ k, Snowplow.read_field event k =
          match payload event !! k with
          | Some v => if is_null v then None else Some (Val v)
          | None => if bool_decide (k ∈ prototype_names) then Some (Member k) else None
          end).
Proof.
  split; [apply buildContexts_parts|].
  split; [apply context_part_lookup|].
  split; [|apply read_field_cases].
  intros f. unfold readable. rewrite read_field_cases.
  destruct (payload event !! f) as [v|].
  - destruct (is_null v) eqn:Hv.
    + split; [discriminate|]. intros [(w & [= <-] & Hw)|[? _]]; congruence.
    + split; [intros _; left; eauto|reflexivity].
  - destruct (bool_decide_reflect (f ∈ prototype_names)) as [Hin|Hout].
    + split; [intros _; right; auto|reflexivity].
    + split; [discriminate|]. intros [(w & ? & _)|[_ Hin]]; [discriminate|contradiction].
Qed.

(** X19.  A batch carries what the single sends carry: in either mode
    [sendBatch] hands over, in order, the items that [send] hands over
    for each event of the batch, be it to the collector or to the
    tracker function; and to the collector it makes at most one
    request. *)
Theorem snowplow_batch_carries_the_single_sends config tracker events :
  posted_items (Snowplow.sendBatch config tracker events).1 =
    concat (map (λ e, posted_items (Snowplow.send config tracker e).1) events) ∧
  tracked (Snowplow.sendBatch config tracker events).1 =
    concat (map (λ e, tracked (Snowplow.send config tracker e).1) events) ∧
  length (requests (Snowplow.sendBatch config tracker events).1) ≤ 1.
Proof.
  unfold Snowplow.sendBatch, Snowplow.send.
  destruct (Snowplow.mode config).
  - cbn [fst]. unfold Snowplow.sendViaBrowserTracker.
    destruct tracker; repeat split.
    + induction events as [|e rest IH]; [reflexivity|]. simpl in *. exact IH.
    + induction events as [|e rest IH]; [reflexivity|]. simpl in *. congruence.
    + induction events as [|e rest IH]; [simpl; lia|]. simpl in *. exact IH.
    + induction events as [|e rest IH]; [reflexivity|]. simpl in *. exact IH.
    + induction events as [|e rest IH]; [reflexivity|]. simpl in *. exact IH.
    + induction events as [|e rest IH]; [simpl; lia|]. simpl in *. exact IH.
  - unfold Snowplow.sendBatchViaHttp, Snowplow.sendViaHttp.
    destruct (Snowplow.collector config) as [u|];
      [destruct (Snowplow.fetch config) as [fetchFn|]|]; cbn [fst]; repeat split;
      try (simpl; lia);
      try (induction events as [|e rest IH]; [reflexivity|]; simpl in *; exact IH).
    unfold posted_items. cbn [omap list_omap concat]. rewrite app_nil_r.
    induction events as [|e rest IH]; [reflexivity|]. simpl. f_equal. exact IH.
Qed.

(** Without middleware every event of a batch survives. *)
Lemma process_no_middleware events now :
  ∃ t, Dispatcher.process [] events [] now = At t (Fulfilled events).
Proof.
  assert (Hall : forallb (resolves []) events = true)
    by (induction events as [|e rest IH]; [reflexivity|simpl; rewrite IH; reflexivity]).
  assert (Hsame : omap (survivor []) events = events).
  { induction events as [|e rest IH]; [reflexivity|].
    cbn [omap list_omap]. unfold survivor at 1. simpl.
    f_equal. apply IH. simpl in Hall. exact Hall. }
  pose proof (process_survivors [] events [] now) as H.
  rewrite Hall, Hsame in H. destruct H as (t & Ht & _). exists t. exact Ht.
Qed.

(** X20.  In http mode without a collector URL (none, or the empty
    string) the two paths differ.  [send] posts nothing and its promise
    is rejected, so [dispatch] rejects with the error of the adapter.
    [sendBatch] posts nothing either but its promise is fulfilled, so
    [dispatchBatch] fulfils: the events of the batch are lost without
    an error. *)
Theorem snowplow_http_without_collector config tracker event events now :
  Snowplow.mode config = Snowplow.Http →
  Snowplow.collector config = None →
  (Snowplow.send config tracker event).1 = [] ∧
  (Snowplow.sendBatch config tracker (event :: events)).1 = [] ∧
  (∃ t, settled (Dispatcher.dispatch
                   (Dispatcher.mk [Snowplow.adapter config tracker] []) event now)
        = At t (Rejected
                  (Dispatcher.adapter_error (Snowplow.adapter config tracker)
                     "[opentp/snowplow] collectorUrl is required for http mode"))) ∧
  (∃ t, settled (Dispatcher.dispatchBatch
                   (Dispatcher.mk [Snowplow.adapter config tracker] [])
                   (event :: events) now)
        = At t (Fulfilled tt)).
Proof.
  intros Hmode Hurl.
  assert (Hsend : Snowplow.send config tracker event =
            ([], Rejects 0 "[opentp/snowplow] collectorUrl is required for http mode")).
  { unfold Snowplow.send, Snowplow.sendViaHttp. rewrite Hmode, Hurl. reflexivity. }
  assert (Hbatch : ∀ l, Snowplow.sendBatch config tracker l = ([], Fulfils 0)).
  { intros l. unfold Snowplow.sendBatch, Snowplow.sendBatchViaHttp.
    rewrite Hmode, Hurl. reflexivity. }
  split; [rewrite Hsend; reflexivity|].
  split; [rewrite Hbatch; reflexivity|].
  split.
  - unfold Dispatcher.dispatch. cbn [Dispatcher.middlewareChain Dispatcher.adapters].
    cbn [Dispatcher.runMiddleware await js_map Dispatcher.send_task].
    unfold Dispatcher.await_call. cbn [Snowplow.adapter Adapter.send].
    rewrite Hsend. simpl. eexists. reflexivity.
  - unfold Dispatcher.dispatchBatch.
    cbn [Dispatcher.middlewareChain Dispatcher.adapters].
    destruct (process_no_middleware (event :: events) now) as (t & ->).
    cbn [length Nat.eqb js_map]. unfold Dispatcher.batch_task.
    cbn [Snowplow.adapter Adapter.sendBatch]. rewrite Hbatch.
    simpl. eexists. reflexivity.
Qed.

Lemma snowplow_http_without_collector_witness :
  let config :=
    Snowplow.mk Snowplow.Http "com.example" None None None None None false
      (Some EmptyString) (Some (λ _, Fulfils 1)) None in
  (Snowplow.sendBatch config false [login_event; logout_event]).1 = [] ∧
  ∃ t, settled (Dispatcher.dispatchBatch
                  (Dispatcher.mk [Snowplow.adapter config false] [])
                  [login_event; logout_event] 0)
       = At t (Fulfilled tt).
Proof.
  intros config.
  pose proof (snowplow_http_without_collector config false login_event [logout_event] 0
                eq_refl eq_refl) as (_ & H2 & _ & H4).
  split; [exact H2|exact H4].
Defined.

(* ----------------------------------------------------------------- *)
(** ** Event names of the GA4 and Amplitude adapters *)

Lemma replace_separator_first a rest :
  colon_free a = true →
  replace_separator (a +:+ "::" +:+ rest) = a +:+ "_" +:+ rest.
Proof.
  induction a as [|c a IH]; intros Hfree; [reflexivity|].
  simpl in Hfree. apply andb_true_iff in Hfree as [Hc Ha].
  apply negb_true_iff in Hc.
  change (String c a +:+ "::" +:+ rest) with (String c (a +:+ "::" +:+ rest)).
  change (String c a +:+ "_" +:+ rest) with (String c (a +:+ "_" +:+ rest)).
  rewrite <- (IH Ha).
  destruct (a +:+ "::" +:+ rest) as [|c' tail] eqn:Htail.
  - destruct a; discriminate.
  - cbn [replace_separator]. rewrite Hc. reflexivity.
Qed.

Lemma replace_separator_colon_free s :
  colon_free s = true → replace_separator s = s.
Proof.
  induction s as [|c s IH]; intros Hfree; [reflexivity|].
  simpl in Hfree. apply andb_true_iff in Hfree as [Hc Hs].
  apply negb_true_iff in Hc.
  destruct s as [|c' tail]; [reflexivity|].
  cbn [replace_separator]. rewrite Hc. cbn [andb]. f_equal. apply IH, Hs.
Qed.

(** When [map[key]] is falsy: the entry of the map is the empty string,
    or the map has no entry and the key is not the name of an inherited
    member. *)
Lemma truthy_entry_None (map : gmap string string) k :
  truthy_entry map k = None ↔
  match map !! k with
  | Some s => s = EmptyString
  | None => k ∉ prototype_names
  end.
Proof.
  unfold truthy_entry, property. destruct (map !! k) as [s|].
  - destruct s; simpl; split; congruence.
  - destruct (inherited k) eqn:Hk.
    + split; [discriminate|]. intros Hout. exfalso. apply Hout, inherited_elem, Hk.
    + split; [|reflexivity]. intros _ Hin. apply inherited_elem in Hin. congruence.
Qed.

(** X21.  An event for which [eventNameMap[event.key]] is falsy and whose
    payload has no string [event_name] is named after its key, in which
    the first separator is replaced: a key that is an area without a
    colon, the separator and a rest is sent as the area, an underscore
    and the rest, whatever the rest holds; a key without a colon is sent
    as it is.  The read of the map is falsy when its entry is the empty
    string, or when it has no entry and the key is not the name of a
    member of [Object.prototype]: for such a name without an entry the
    name of the event is the inherited member, not a string.  The GA4
    and the Amplitude adapter agree on the name. *)
Theorem key_fallback_replaces_first_separator
    (eventNameMap : option (gmap string string)) (event : DispatchedEvent) :
  (truthy_entry (default ∅ eventNameMap) (key event) = None →
   as_string (payload event !! "event_name") = None →
   ∀ a rest, colon_free a = true →
     (key event = a +:+ "::" +:+ rest →
      GA4.resolveEventName eventNameMap event = Val (a +:+ "_" +:+ rest)) ∧
     (key event = a → GA4.resolveEventName eventNameMap event = Val a)) ∧
  (truthy_entry (default ∅ eventNameMap) (key event) = None ↔
   match default ∅ eventNameMap !! key event with
   | Some s => s = EmptyString
   | None => key event ∉ prototype_names
   end) ∧
  (default ∅ eventNameMap !! key event = None →
   key event ∈ prototype_names →
   GA4.resolveEventName eventNameMap event = Member (key event)) ∧
  (∀ E (config : Amplitude.AmplitudeConfig E),
     Amplitude.eventNameMap config = eventNameMap →
     Amplitude.resolveEventType config event = GA4.resolveEventName eventNameMap event).
Proof.
  split; [|split; [|split]].
  - intros Hmap Hname a rest Hfree.
    unfold GA4.resolveEventName. rewrite Hmap, Hname. split.
    + intros ->. f_equal. apply replace_separator_first, Hfree.
    + intros ->. f_equal. apply replace_separator_colon_free, Hfree.
  - apply truthy_entry_None.
  - intros Hnone Hin. unfold GA4.resolveEventName, truthy_entry.
    rewrite (property_inherited _ _ Hnone (proj2 (inherited_elem _) Hin)). reflexivity.
  - intros E config <-. reflexivity.
Qed.

Lemma key_fallback_replaces_first_separator_witness :
  let event := mkEvent "shop::cart::add" "shop" "cart::add" ∅ 0 ∅ in
  let eventNameMap : option (gmap string string) :=
    Some {[ "shop::cart::add"%string := EmptyString ]} in
  (truthy_entry (default ∅ eventNameMap) (key event) = None ∧
   as_string (payload event !! "event_name") = None ∧ colon_free "shop" = true) ∧
  GA4.resolveEventName eventNameMap event = Val "shop_cart::add"%string.
Proof.
  intros event eventNameMap. split; [repeat split|].
  exact (proj1 (proj1 (key_fallback_replaces_first_separator eventNameMap event)
                  eq_refl eq_refl "shop"%string "cart::add"%string eq_refl) eq_refl).
Defined.

(** The event of a key that names an inherited member gets the member
    as its name. *)
Example inherited_member_as_event_name :
  GA4.resolveEventName None (mkEvent "constructor" "shop" "checkout" ∅ 0 ∅)
    = Member "constructor".
Proof. reflexivity. Qed.

(* ----------------------------------------------------------------- *)
(** ** Batches of the Amplitude adapter *)

Section AmplitudeMore.

Context {E : Type}.

(** The loop over the events keeps the closed chunks full, the open one
    short of full, and loses nothing. *)
Lemma chunk_loop_invariant (M : Z) (build : DispatchedEvent → E) batch :
  ∀ st : list (list E) * list E,
    Forall (λ c, length c = Z.to_nat (Z.max 1 M)) st.1 →
    length st.2 < Z.to_nat (Z.max 1 M) →
    Forall (λ c, length c = Z.to_nat (Z.max 1 M))
      (foldl (λ st event, Amplitude.chunk_step M st (build event)) st batch).1 ∧
    length (foldl (λ st event, Amplitude.chunk_step M st (build event)) st batch).2
      < Z.to_nat (Z.max 1 M) ∧
    concat (foldl (λ st event, Amplitude.chunk_step M st (build event)) st batch).1 ++
      (foldl (λ st event, Amplitude.chunk_step M st (build event)) st batch).2
    = concat st.1 ++ st.2 ++ map build batch.
Proof.
  induction batch as [|e rest IH]; intros [cs cur] Hfull Hshort; cbn [foldl].
  - rewrite app_nil_r. auto.
  - cbn [fst snd] in Hfull, Hshort.
    assert (Hstep :
      Forall (λ c, length c = Z.to_nat (Z.max 1 M))
        (Amplitude.chunk_step M (cs, cur) (build e)).1 ∧
      length (Amplitude.chunk_step M (cs, cur) (build e)).2 < Z.to_nat (Z.max 1 M) ∧
      concat (Amplitude.chunk_step M (cs, cur) (build e)).1 ++
        (Amplitude.chunk_step M (cs, cur) (build e)).2
      = concat cs ++ cur ++ [build e]).
    { unfold Amplitude.chunk_step. cbn [fst snd].
      destruct (Z.leb_spec M (Z.of_nat (length (cur ++ [build e])))) as [Hle|Hlt];
        cbn [fst snd]; rewrite length_app in *; cbn [length] in *.
      - split; [|split].
        + apply Forall_app. split; [exact Hfull|].
          constructor; [|constructor]. rewrite length_app. cbn [length]. lia.
        + lia.
        + rewrite concat_app. cbn [concat]. rewrite !app_nil_r. reflexivity.
      - split; [exact Hfull|]. split; [lia|reflexivity]. }
    destruct Hstep as (H1 & H2 & H3).
    destruct (IH _ H1 H2) as (IH1 & IH2 & IH3).
    split; [exact IH1|]. split; [exact IH2|].
    rewrite IH3, app_assoc, H3. cbn [fst snd map].
    rewrite <- !app_assoc. reflexivity.
Qed.

End AmplitudeMore.

(** X22.  The chunks of a batch partition it: put end to end they are
    the event objects of the batch in order, no chunk is empty, every
    chunk but the last has exactly the chunk size and the last has at
    most the chunk size.  The chunk size is [maxBatchSize], 2000 when it
    is not given, and 1 when it is zero or negative. *)
Theorem amplitude_chunks_partition_the_batch {E} (config : Amplitude.AmplitudeConfig E)
    (build : DispatchedEvent → E) (batch : list DispatchedEvent) :
  concat (Amplitude.chunks config build batch) = map build batch ∧
  ∀ i c, Amplitude.chunks config build batch !! i = Some c →
         (0 < length c ≤ chunk_size config) ∧
         (S i < length (Amplitude.chunks config build batch) →
          length c = chunk_size config).
Proof.
  unfold Amplitude.chunks, chunk_size. cbv zeta.
  set (M := default Amplitude.DEFAULT_MAX_BATCH (Amplitude.maxBatchSize config)).
  assert (Hpos : 0 < Z.to_nat (Z.max 1 M)) by lia.
  destruct (chunk_loop_invariant M build batch ([], []))
    as (Hfull & Hshort & Hcat); [constructor|exact Hpos|].
  cbn [fst snd concat app] in Hcat.
  set (st := foldl (λ st event, Amplitude.chunk_step M st (build event)) ([], []) batch)
    in *.
  destruct st.2 as [|x cur] eqn:Hcur.
  - rewrite app_nil_r in Hcat. split; [exact Hcat|].
    intros i c Hi. pose proof (Forall_lookup_1 _ _ _ _ Hfull Hi) as Hlen.
    simpl in Hlen. lia.
  - split; [rewrite concat_app; cbn [concat]; rewrite app_nil_r; exact Hcat|].
    intros i c Hi. rewrite length_app. cbn [length].
    apply lookup_app_Some in Hi as [Hi|[Hge Hi]].
    + pose proof (Forall_lookup_1 _ _ _ _ Hfull Hi) as Hlen. simpl in Hlen. lia.
    + destruct (i - length st.1) as [|n] eqn:Hn; [|discriminate].
      injection Hi as <-. cbn [length] in *. lia.
Qed.

Section AmplitudeSend.

Context {E : Type}.
Variable config : Amplitude.AmplitudeConfig E.
Variable fetchFn : Amplitude.Request E → Amplitude.Response.
Hypothesis Hfetch : Amplitude.fetch config = Some fetchFn.







End AmplitudeSend.



(** X24.  In browser-sdk mode an event reaches Amplitude as one call of
    [track] with its resolved name and the properties that are left of
    the payload: every property passed is a field of the payload with
    its value, is not [event_name] and is none of the identity fields in
    force, so the user, device, session and application identity of the
    payload is not passed on; and an empty object is never passed. *)
Theorem amplitude_browser_sdk_drops_identity_fields {E}
    (config : Amplitude.AmplitudeConfig E) (event : DispatchedEvent) :
  ∃ props,
    Amplitude.sendViaBrowserSdk config true event
      = [Amplitude.Track (Amplitude.resolveEventType config event) props] ∧
    props ≠ Some ∅ ∧
    ∀ k v, default ∅ props !! k = Some v →
           payload event !! k = Some v ∧
           k ≠ "event_name" ∧ (k ∉ identity_fields config).
Proof.
  unfold Amplitude.sendViaBrowserSdk. cbv zeta.
  assert (Hprops : ∀ k v, Amplitude.eventProperties config event !! k = Some v →
            payload event !! k = Some v ∧
            k ≠ "event_name" ∧ (k ∉ identity_fields config)).
  { intros k v Hk. unfold Amplitude.eventProperties in Hk.
    apply map_lookup_filter_Some in Hk as [Hk Hout]. cbn [fst] in Hout.
    split; [exact Hk|]. unfold Amplitude.excludeSet, Amplitude.ALWAYS_EXCLUDED in Hout.
    unfold identity_fields. rewrite !elem_of_app in *. rewrite list_elem_of_singleton in Hout.
    intuition. }
  destruct (bool_decide_reflect (Amplitude.eventProperties config event = ∅)) as [He|Hne].
  - exists None. split; [reflexivity|]. split; [discriminate|].
    intros k v Hk. simpl in Hk. rewrite lookup_empty in Hk. discriminate.
  - exists (Some (Amplitude.eventProperties config event)).
    split; [reflexivity|]. split; [congruence|]. exact Hprops.
Qed.
